(** * Deckard's Helper: the firmware of DeckHelper.ino, embedded and verified

    The sketch does two jobs in one cooperative loop: it rewrites channel
    aftertouch into polyphonic aftertouch for the most recently pressed key,
    and it turns a softpot ribbon into CS-80 style pitch bend.  Every global
    of the sketch is a field of [State]; [setup], [loop] and the three MIDI
    callbacks are functions from a state (and what the hardware delivers) to
    the next state and the list of effects they perform, in program order. *)

From Stdlib Require Import ZArith List Bool Lia.
From Stdlib Require Import Floats.SpecFloat.
From stdpp Require Import base list.

Local Open Scope Z_scope.

(** ** Machine integers *)

(** [byte] is the 8-bit unsigned type of the Arduino core.  The sketch only
    stores, compares and forwards bytes, it never computes with them. *)
Definition byte := Z.

(** [int] on the Teensy 3.x is 32-bit two's complement; [unsigned long] is
    32 bits wide and wraps around. *)
Definition wrap_int (z : Z) : Z := (z + 2^31) mod 2^32 - 2^31.
Definition wrap_ulong (z : Z) : Z := z mod 2^32.

(** C++ [%] on [int] truncates toward zero, as [Z.rem] does. *)
Definition int_rem (a b : Z) : Z := Z.rem a b.

(** ** Floating point

    [float] is IEEE-754 binary32 and [double] is binary64, both taken from
    the executable specification of the Standard Library ([spec_float],
    round to nearest, ties to even). *)
Module F32.
Definition prec : Z := 24.
Definition emax : Z := 128.

Definition of_int (z : Z) : spec_float := binary_normalize prec emax z 0 false.
Definition sub (x y : spec_float) : spec_float := SFsub prec emax x y.
Definition mul (x y : spec_float) : spec_float := SFmul prec emax x y.
Definition neg (x : spec_float) : spec_float := SFopp x.
Definition ltb (x y : spec_float) : bool := SFltb x y.
Definition leb (x y : spec_float) : bool := SFleb x y.
Definition eqb (x y : spec_float) : bool := SFeqb x y.

(** Conversion of a [float] to [int] truncates toward zero.  Outside the
    range of [int] (and for NaN) the C++ standard leaves the conversion
    undefined; the model fixes what the ARM run time does there: it
    saturates, and NaN becomes 0. *)
Definition to_int (x : spec_float) : Z :=
  match x with
  | S754_zero _ => 0
  | S754_nan => 0
  | S754_infinity s => if s then - 2^31 else 2^31 - 1
  | S754_finite s m e =>
      let a := if 0 <=? e then Z.shiftl (Zpos m) e else Z.shiftr (Zpos m) (- e) in
      let t := if s then - a else a in
      Z.max (- 2^31) (Z.min (2^31 - 1) t)
  end.
End F32.

Module F64.
Definition prec : Z := 53.
Definition emax : Z := 1024.

Definition of_int (z : Z) : spec_float := binary_normalize prec emax z 0 false.
Definition add (x y : spec_float) : spec_float := SFadd prec emax x y.
Definition mul (x y : spec_float) : spec_float := SFmul prec emax x y.
Definition div (x y : spec_float) : spec_float := SFdiv prec emax x y.

(** Promotion of a [float] is exact: the same value with a 53-bit
    mantissa. *)
Definition of_float (x : spec_float) : spec_float :=
  match x with
  | S754_finite s m e => binary_round prec emax s m e
  | _ => x
  end.

(** Assignment to a [float] rounds to binary32. *)
Definition to_float (x : spec_float) : spec_float :=
  match x with
  | S754_finite s m e => binary_round F32.prec F32.emax s m e
  | _ => x
  end.

(** The literals [0.95] and [0.05]: the doubles nearest to 95/100 and
    5/100. *)
Definition lit_0_95 : spec_float := Eval vm_compute in div (of_int 95) (of_int 100).
Definition lit_0_05 : spec_float := Eval vm_compute in div (of_int 5) (of_int 100).
End F64.

Definition float := spec_float.

Definition fzero : float := S754_zero false.
Definition fnan : float := S754_nan.

(** [abs] is the macro of the Arduino core, [((x)>0?(x):-(x))]. *)
Definition arduino_abs (x : float) : float :=
  if F32.ltb fzero x then x else F32.neg x.

(** ** MIDI vocabulary *)

(** The message kinds of the MIDI library the sketch links against. *)
Inductive MidiType :=
| InvalidType | NoteOff | NoteOn | AfterTouchPoly | ControlChange
| ProgramChange | AfterTouchChannel | PitchBend | SystemExclusive
| TimeCodeQuarterFrame | SongPosition | SongSelect | TuneRequest
| Clock | Start | Continue | Stop | ActiveSensing | SystemReset.

Definition is_AfterTouchChannel (m : MidiType) : bool :=
  match m with AfterTouchChannel => true | _ => false end.

(** What the sketch does to the outside world, in program order. *)
Inductive Effect :=
| LedWrite (level : bool)                                (* digitalWrite(led_pin, _) *)
| MidiSend (message : MidiType) (data1 data2 channel : byte) (* midiIO.send *)
| MidiPitchBend (value : Z) (channel : byte).            (* midiIO.sendPitchBend *)

Definition HIGH := true.
Definition LOW := false.

(** The pitch-bend values of a trace. *)
Fixpoint bends (tr : list Effect) : list Z :=
  match tr with
  | [] => []
  | MidiPitchBend v _ :: tr' => v :: bends tr'
  | _ :: tr' => bends tr'
  end.

(** ** The note buffer

    [NoteBuffer.h] is not part of the sketch file; the sketch uses four of
    its operations, which form this interface. *)
Class NotePriorityBuffer (B : Type) := {
  nb_setup : B;                       (* after setup(NotePriorityBuffer::kLast) *)
  nb_noteOn : B -> byte -> byte -> B; (* noteOn(note, velocity) *)
  nb_noteOff : B -> byte -> B;        (* noteOff(note) *)
  nb_curNote : B -> byte              (* curNote() *)
}.

(** Modelled from the spec: [NoteBuffer.h] is missing.  The held notes are
    kept most recently pressed first; [noteOn] marks a note as the most
    recent one, [noteOff] removes it, and [curNote] is the most recent held
    note, or the sentinel [no_note] when nothing is held. *)
Definition drop_note (n : byte) (held : list byte) : list byte :=
  List.filter (fun m => negb (m =? n)) held.

Definition LastNoteBuffer (no_note : byte) : NotePriorityBuffer (list byte) := {|
  nb_setup := [];
  nb_noteOn held n _ := n :: drop_note n held;
  nb_noteOff held n := drop_note n held;
  nb_curNote held := match held with [] => no_note | n :: _ => n end
|}.

(** ** State *)

Record AfterTouchMessage := mkAT { at_note : byte; at_pressure : byte; at_channel : byte }.

Definition at_clear : AfterTouchMessage := mkAT 0 0 0.
Definition at_set (n p c : byte) : AfterTouchMessage := mkAT n p c.

Definition slope_xsize : Z := 20.
Definition slope_ysize : Z := 1.
Definition baseline_limit : Z := 13.

Record State {B : Type} := mkState {
  midiNoteBuffer : B;
  lastAfterTouchMessage : AfterTouchMessage;
  baseline : float;
  accumulator : float;
  sample : list float;
  currentValue : float;
  loopCount : Z;
  lastMessage : Z;
  lastChannelUsed : byte;
  lastBend : Z                (* the function-local static of [loop] *)
}.
Arguments State B : clear implicits.
Arguments mkState {B}.

Section Sketch.
Context {B : Type} {NB : NotePriorityBuffer B}.

Abbreviation St := (State B).

Definition set_midiNoteBuffer (s : St) (b : B) : St :=
  mkState b (lastAfterTouchMessage s) (baseline s) (accumulator s) (sample s)
    (currentValue s) (loopCount s) (lastMessage s) (lastChannelUsed s) (lastBend s).
Definition set_lastAfterTouchMessage (s : St) (m : AfterTouchMessage) : St :=
  mkState (midiNoteBuffer s) m (baseline s) (accumulator s) (sample s)
    (currentValue s) (loopCount s) (lastMessage s) (lastChannelUsed s) (lastBend s).
Definition set_baseline (s : St) (x : float) : St :=
  mkState (midiNoteBuffer s) (lastAfterTouchMessage s) x (accumulator s) (sample s)
    (currentValue s) (loopCount s) (lastMessage s) (lastChannelUsed s) (lastBend s).
Definition set_accumulator (s : St) (x : float) : St :=
  mkState (midiNoteBuffer s) (lastAfterTouchMessage s) (baseline s) x (sample s)
    (currentValue s) (loopCount s) (lastMessage s) (lastChannelUsed s) (lastBend s).
Definition set_sample (s : St) (l : list float) : St :=
  mkState (midiNoteBuffer s) (lastAfterTouchMessage s) (baseline s) (accumulator s) l
    (currentValue s) (loopCount s) (lastMessage s) (lastChannelUsed s) (lastBend s).
Definition set_currentValue (s : St) (x : float) : St :=
  mkState (midiNoteBuffer s) (lastAfterTouchMessage s) (baseline s) (accumulator s)
    (sample s) x (loopCount s) (lastMessage s) (lastChannelUsed s) (lastBend s).
Definition set_loopCount (s : St) (n : Z) : St :=
  mkState (midiNoteBuffer s) (lastAfterTouchMessage s) (baseline s) (accumulator s)
    (sample s) (currentValue s) n (lastMessage s) (lastChannelUsed s) (lastBend s).
Definition set_lastMessage (s : St) (t : Z) : St :=
  mkState (midiNoteBuffer s) (lastAfterTouchMessage s) (baseline s) (accumulator s)
    (sample s) (currentValue s) (loopCount s) t (lastChannelUsed s) (lastBend s).
Definition set_lastChannelUsed (s : St) (c : byte) : St :=
  mkState (midiNoteBuffer s) (lastAfterTouchMessage s) (baseline s) (accumulator s)
    (sample s) (currentValue s) (loopCount s) (lastMessage s) c (lastBend s).
Definition set_lastBend (s : St) (b : Z) : St :=
  mkState (midiNoteBuffer s) (lastAfterTouchMessage s) (baseline s) (accumulator s)
    (sample s) (currentValue s) (loopCount s) (lastMessage s) (lastChannelUsed s) b.

(** ** The MIDI callbacks *)

(** [MIDINoteOffHandler(channel, note, velocity)] *)
Definition MIDINoteOffHandler (s : St) (channel note velocity : byte)
  : St * list Effect :=
  let s := set_lastChannelUsed s channel in
  let last := lastAfterTouchMessage s in
  let '(s, out) :=
    if (at_note last =? note) && negb (at_pressure last =? 0)
    then (set_lastAfterTouchMessage s at_clear,
          [MidiSend AfterTouchPoly (at_note last) 0 (at_channel last)])
    else (s, []) in
  (set_midiNoteBuffer s (nb_noteOff (midiNoteBuffer s) note), out).

(** [MIDINoteOnHandler(channel, note, velocity)] *)
Definition MIDINoteOnHandler (s : St) (channel note velocity : byte)
  : St * list Effect :=
  let s := set_lastChannelUsed s channel in
  if velocity =? 0
  then MIDINoteOffHandler s channel note velocity
  else
    let last := lastAfterTouchMessage s in
    let '(s, out) :=
      if negb (at_note last =? note) && negb (at_pressure last =? 0)
      then (set_lastAfterTouchMessage s at_clear,
            [MidiSend AfterTouchPoly (at_note last) 0 (at_channel last)])
      else (s, []) in
    (set_midiNoteBuffer s (nb_noteOn (midiNoteBuffer s) note velocity), out).

(** [MIDIThruHandler(message, data1, data2, channel)] *)
Definition MIDIThruHandler (s : St) (message : MidiType) (data1 data2 channel : byte)
  : St * list Effect :=
  if is_AfterTouchChannel message
  then
    let note := nb_curNote (midiNoteBuffer s) in
    let pressure := data1 in
    (set_lastAfterTouchMessage s (at_set note pressure channel),
     [MidiSend AfterTouchPoly note pressure channel])
  else (s, [MidiSend message data1 data2 channel]).

(** One invocation of a callback by the MIDI library.  Which callbacks the
    library runs for a message it has parsed is its own business; the
    sketch is specified for every sequence of invocations. *)
Inductive Callback :=
| OnNoteOn (channel note velocity : byte)
| OnNoteOff (channel note velocity : byte)
| OnThru (message : MidiType) (data1 data2 channel : byte).

Definition dispatch (s : St) (c : Callback) : St * list Effect :=
  match c with
  | OnNoteOn ch n v => MIDINoteOnHandler s ch n v
  | OnNoteOff ch n v => MIDINoteOffHandler s ch n v
  | OnThru m d1 d2 ch => MIDIThruHandler s m d1 d2 ch
  end.

(** [midiIO.read()]: the callbacks run one after the other, synchronously. *)
Fixpoint midi_read (s : St) (cs : list Callback) : St * list Effect :=
  match cs with
  | [] => (s, [])
  | c :: cs' =>
      let '(s1, o1) := dispatch s c in
      let '(s2, o2) := midi_read s1 cs' in
      (s2, o1 ++ o2)
  end.

(** ** The ribbon *)

(** [0.95*accumulator + 0.05*sensorReading]: the literals are [double]s, so
    both [float] operands are promoted, both products and the sum are
    computed in [double], and the assignment rounds to [float]. *)
Definition ema (acc sensorReading : float) : float :=
  F64.to_float
    (F64.add (F64.mul F64.lit_0_95 (F64.of_float acc))
             (F64.mul F64.lit_0_05 (F64.of_float sensorReading))).

(** The array [sample].  An access outside the array is undefined in C++;
    the model then leaves the array as it is and reads NaN. *)
Definition in_array (a : list float) (i : Z) : bool :=
  (0 <=? i) && (i <? Z.of_nat (length a)).
Definition array_set (a : list float) (i : Z) (x : float) : list float :=
  if in_array a i then <[Z.to_nat i := x]> a else a.
Definition array_get (a : list float) (i : Z) : float :=
  if in_array a i then default fnan (a !! Z.to_nat i) else fnan.

Definition write_index (s : St) : Z := int_rem (loopCount s) slope_xsize.
Definition read_index (s : St) : Z := int_rem (wrap_int (loopCount s + 1)) slope_xsize.

(** What one iteration of [loop] reads from the hardware: the callbacks
    that [midiIO.read()] runs, the value of [analogRead(A0)], and the two
    readings of [millis()] (in the throttle test, and when the time of the
    send is stored), which are values of [unsigned long]. *)
Record Tick := mkTick {
  midi_in : list Callback;
  analog : Z;
  millis_test : Z;
  millis_stamp : Z
}.

(** The sample that the slope filter compares the new accumulator with. *)
Definition earlier_sample (s : St) (reading : Z) : float :=
  let acc := ema (accumulator s) (F32.of_int reading) in
  array_get (array_set (sample s) (write_index s) acc) (read_index s).

(** The slope test, [abs(accumulator - earlierSample) < slope_ysize]. *)
Definition slope_ok (acc earlierSample : float) : bool :=
  F32.ltb (arduino_abs (F32.sub acc earlierSample)) (F32.of_int slope_ysize).

(** Moving average, ring buffer and slope filter. *)
Definition ribbon_filter (s : St) (reading : Z) : St :=
  let sensorReading := F32.of_int reading in
  let s := set_accumulator s (ema (accumulator s) sensorReading) in
  let s := set_sample s (array_set (sample s) (write_index s) (accumulator s)) in
  let earlierSample := array_get (sample s) (read_index s) in
  if slope_ok (accumulator s) earlierSample
  then set_currentValue s (accumulator s)
  else s.

(** [int bend = 2 * (currentValue - baseline)] *)
Definition bend_of (s : St) : Z :=
  F32.to_int (F32.mul (F32.of_int 2) (F32.sub (currentValue s) (baseline s))).

Definition strobe (e : Effect) : list Effect := [LedWrite HIGH; e; LedWrite LOW].

(** Baseline, contact transitions and the throttled pitch bend. *)
Definition ribbon_bend (s : St) (t_test t_stamp : Z) : St * list Effect :=
  if F32.ltb (baseline s) (F32.of_int baseline_limit)
  then
    if F32.ltb (F32.of_int baseline_limit) (currentValue s)
    then (set_baseline s (currentValue s),
          strobe (MidiPitchBend 0 (lastChannelUsed s)))
    else (s, [])
  else
    if F32.leb (currentValue s) (F32.of_int baseline_limit)
    then (set_baseline s (F32.of_int 0),
          strobe (MidiPitchBend 0 (lastChannelUsed s)))
    else
      let bend := bend_of s in
      if negb (bend =? lastBend s)
      then
        if 10 <? wrap_ulong (t_test - lastMessage s)
        then (set_lastBend (set_lastMessage s t_stamp) bend,
              strobe (MidiPitchBend bend (lastChannelUsed s)))
        else (s, [])
      else (s, []).

(** [loopCount++; if ((loopCount % slope_xsize) == 0) loopCount = 0;] *)
Definition advance (s : St) : St :=
  let s := set_loopCount s (wrap_int (loopCount s + 1)) in
  if int_rem (loopCount s) slope_xsize =? 0 then set_loopCount s 0 else s.

(** [setup()], given the first value of [analogRead(A0)]. *)
Definition setup (reading : Z) : St :=
  let acc := F32.of_int reading in
  {| midiNoteBuffer := nb_setup;
     lastAfterTouchMessage := at_clear;
     baseline := F32.of_int 0;
     accumulator := acc;
     sample := replicate (Z.to_nat slope_xsize) acc;
     currentValue := acc;
     loopCount := 0;
     lastMessage := 0;
     lastChannelUsed := 0;
     lastBend := -1 |}.

(** [loop()] *)
Definition loop (s : St) (i : Tick) : St * list Effect :=
  let '(s, o1) := midi_read s (midi_in i) in
  let s := ribbon_filter s (analog i) in
  let '(s, o2) := ribbon_bend s (millis_test i) (millis_stamp i) in
  (advance s, o1 ++ o2).

(** The sketch after [setup] and one [loop] per element of [ticks]. *)
Fixpoint run_from (s : St) (ticks : list Tick) : St * list Effect :=
  match ticks with
  | [] => (s, [])
  | i :: rest =>
      let '(s1, o1) := loop s i in
      let '(s2, o2) := run_from s1 rest in
      (s2, o1 ++ o2)
  end.

Definition run (reading : Z) (ticks : list Tick) : St * list Effect :=
  run_from (setup reading) ticks.

Definition state_after (reading : Z) (ticks : list Tick) : St :=
  fst (run reading ticks).

(** ** Vocabulary of the properties *)

(** A note-off for note [n], or the velocity-0 note-on that stands for it. *)
Definition releases (c : Callback) (n : byte) : Prop :=
  match c with
  | OnNoteOff _ m _ => m = n
  | OnNoteOn _ m v => m = n /\ v = 0
  | OnThru _ _ _ _ => False
  end.

(** A note-on (a real one, with a velocity) for a note other than [n]. *)
Definition supersedes (c : Callback) (n : byte) : Prop :=
  match c with
  | OnNoteOn _ m v => m <> n /\ v <> 0
  | _ => False
  end.

Definition channel_of (c : Callback) : byte :=
  match c with
  | OnNoteOn ch _ _ | OnNoteOff ch _ _ | OnThru _ _ _ ch => ch
  end.

(** The note buffer after the note event [c]. *)
Definition buffer_after (b : B) (c : Callback) : B :=
  match c with
  | OnNoteOn _ n v => if v =? 0 then nb_noteOff b n else nb_noteOn b n v
  | OnNoteOff _ n _ => nb_noteOff b n
  | OnThru _ _ _ _ => b
  end.

(** The state at the baseline test of [loop]: after the callbacks and the
    filter. *)
Definition filtered (s : St) (i : Tick) : St :=
  ribbon_filter (fst (midi_read s (midi_in i))) (analog i).

Definition limit : float := F32.of_int baseline_limit.

(** The three branches of the baseline logic that do something. *)
Definition contact_start (s : St) (i : Tick) : bool :=
  F32.ltb (baseline (filtered s i)) limit && F32.ltb limit (currentValue (filtered s i)).
Definition contact_end (s : St) (i : Tick) : bool :=
  negb (F32.ltb (baseline (filtered s i)) limit)
  && F32.leb (currentValue (filtered s i)) limit.
Definition bending (s : St) (i : Tick) : bool :=
  negb (F32.ltb (baseline (filtered s i)) limit)
  && negb (F32.leb (currentValue (filtered s i)) limit).

(** Milliseconds between the last throttled send and the throttle test. *)
Definition elapsed (s : St) (i : Tick) : Z :=
  wrap_ulong (millis_test i - lastMessage s).

(** The fields the ribbon code works on. *)
Definition ribbon_fields (s : St) :=
  (baseline s, accumulator s, sample s, currentValue s, loopCount s,
   lastMessage s, lastBend s).

(** The accumulator that iteration [k] of a run (counting from 0) pushes
    into the ring buffer. *)
Definition pushed (reading : Z) (ticks : list Tick) (k : nat) : float :=
  accumulator (state_after reading (take (S k) ticks)).

(** The pushed value that is [d] iterations old at the end of a run ([d = 0]
    for the last one), or the seed of [setup] where the run is shorter. *)
Definition aged (reading : Z) (ticks : list Tick) (d : nat) : float :=
  if (d <? length ticks)%nat
  then pushed reading ticks (length ticks - 1 - d)
  else F32.of_int reading.

(** The ring buffer holds the last 20 pushed values: the one that is [d]
    iterations old sits [d + 1] slots behind [loopCount]. *)
Definition ring_holds (reading : Z) (ticks : list Tick) : Prop :=
  let s := state_after reading ticks in
  forall d : nat, (d < 20)%nat ->
    sample s !! Z.to_nat ((loopCount s + 19 - Z.of_nat d) mod 20)
    = Some (aged reading ticks d).

(** The invariant of the baseline: untouched (0) or above the limit. *)
Definition baseline_ok (s : St) : Prop :=
  baseline s = F32.of_int 0 \/ F32.ltb limit (baseline s) = true.

(** The invariant of the ring buffer index. *)
Definition ring_ok (s : St) : Prop :=
  0 <= loopCount s <= 19 /\ length (sample s) = 20%nat.

End Sketch.

(** ** Concrete runs

    The runs below use the note buffer modelled from the spec, with 255 as
    its "no note" value; no MIDI traffic is involved in them. *)

#[global] Instance demo_buffer : NotePriorityBuffer (list byte) := LastNoteBuffer 255.

(** A tick without MIDI traffic: the ribbon reads [r], the clock reads [t]. *)
Definition quiet (r t : Z) : Tick := mkTick [] r t t.

(** [n] such ticks in a row. *)
Definition hold (r t : Z) (n : nat) : list Tick := replicate n (quiet r t).

(** The sketch is started with a finger on the ribbon at 100: the first
    iteration starts the contact, the second sends the first regular bend (at
    1001 ms); then the finger slides to 101 while the clock reads 1011. *)
Definition slide_ticks : list Tick :=
  hold 100 1000 1 ++ hold 100 1001 1 ++ hold 101 1011 13.
Definition slide_state : State (list byte) := state_after 100 slide_ticks.
Definition slide_tick : Tick := quiet 101 1011.

(** The first two iterations of that run. *)
Definition press_tick : Tick := quiet 100 1000.
Definition first_bend_tick : Tick := quiet 100 1001.
Definition pressed_state : State (list byte) := fst (loop (setup 100) press_tick).

(** Key 60 is held on channel 1 and pressed with aftertouch 80. *)
Definition keyed_callbacks : list Callback :=
  [OnNoteOn 1 60 100; OnThru AfterTouchChannel 80 0 1].
Definition keyed_state : State (list byte) :=
  fst (midi_read (state_after 0 []) keyed_callbacks).

(** Press at 100 and slide to 101 (bend 1 is sent at 2000 ms), lift the
    finger, press again at 100 and slide to 101, all within the same
    millisecond; the last tick comes seven seconds later. *)
Definition repress_ticks : list Tick :=
  hold 100 1000 2 ++ hold 101 2000 20 ++ hold 0 2000 140
  ++ hold 100 2000 100 ++ hold 101 2000 7.
Definition repress_state : State (list byte) := state_after 100 repress_ticks.
Definition repress_tick : Tick := quiet 101 9000.

(** The slope test of one tick, as a function of the ribbon's data. *)
Definition slope_test (acc : float) (smp : list float) (lc : Z) (r : Z) : bool :=
  let acc' := ema acc (F32.of_int r) in
  slope_ok acc'
    (array_get (array_set smp (int_rem lc slope_xsize) acc')
       (int_rem (wrap_int (lc + 1)) slope_xsize)).

(** From the steady state after [setup] with reading 0: is the raw sample
    [r] accepted on the first tick, and is it rejected on the first tick
    and again when it is fed a second time? *)
Definition steady0 : list float := replicate 20 (F32.of_int 0).
Definition accepted_at_once (r : Z) : bool := slope_test (F32.of_int 0) steady0 0 r.
Definition rejected_twice (r : Z) : bool :=
  let a1 := ema (F32.of_int 0) (F32.of_int r) in
  negb (slope_test (F32.of_int 0) steady0 0 r)
  && negb (slope_test a1 (array_set steady0 0 a1) 1 r).

(** The same two questions from the steady state after [setup] with any
    reading [seed]. *)
Definition steady_ring (seed : Z) : list float := replicate 20 (F32.of_int seed).
Definition accepted_at_once_from (seed r : Z) : bool :=
  slope_test (F32.of_int seed) (steady_ring seed) 0 r.
Definition rejected_twice_from (seed r : Z) : bool :=
  let a1 := ema (F32.of_int seed) (F32.of_int r) in
  negb (slope_test (F32.of_int seed) (steady_ring seed) 0 r)
  && negb (slope_test a1 (array_set (steady_ring seed) 0 a1) 1 r).

(** The integers [lo], [lo+1], ..., [lo+n-1]. *)
Definition Zrange (lo : Z) (n : nat) : list Z := List.map (fun k => lo + Z.of_nat k) (seq 0 n).

(** ** Vocabulary of the further properties *)

Definition is_note_callback (c : Callback) : bool :=
  match c with OnThru _ _ _ _ => false | _ => true end.

(** The channel of the last note callback among [cs], or [d] when there is
    none. *)
Fixpoint last_note_channel (cs : list Callback) (d : byte) : byte :=
  match cs with
  | [] => d
  | c :: cs' => last_note_channel cs' (if is_note_callback c then channel_of c else d)
  end.

(** A thru callback for anything but channel aftertouch, and the message it
    stands for. *)
Definition plain_thru (c : Callback) : bool :=
  match c with
  | OnThru m _ _ _ => negb (is_AfterTouchChannel m)
  | _ => false
  end.
Definition message_of (c : Callback) : list Effect :=
  match c with
  | OnThru m d1 d2 ch => [MidiSend m d1 d2 ch]
  | _ => []
  end.

(** Kinds of effects. *)
Definition is_send (e : Effect) : bool :=
  match e with MidiSend _ _ _ _ => true | _ => false end.
Definition is_channel_aftertouch (e : Effect) : bool :=
  match e with MidiSend AfterTouchChannel _ _ _ => true | _ => false end.

(** The channels of the pitch bends of a trace. *)
Fixpoint bend_channels (tr : list Effect) : list byte :=
  match tr with
  | [] => []
  | MidiPitchBend _ ch :: tr' => ch :: bend_channels tr'
  | _ :: tr' => bend_channels tr'
  end.

(** Structural equality of floats (unlike [==], it tells the zeros apart
    and equates NaN with itself). *)
Definition same_float (x y : float) : bool :=
  match x, y with
  | S754_zero a, S754_zero b => Bool.eqb a b
  | S754_infinity a, S754_infinity b => Bool.eqb a b
  | S754_nan, S754_nan => true
  | S754_finite a m e, S754_finite b n f => Bool.eqb a b && (m =? n)%positive && (e =? f)
  | _, _ => false
  end.

(** What the ribbon code computes when the reading [r] equals the
    accumulator: the average stays, the slope test passes, the bend is 0,
    and the value lies on the expected side of the limit. *)
Definition rest_check (r : Z) : bool :=
  let x := F32.of_int r in
  same_float (ema x x) x
  && slope_ok x x
  && (F32.to_int (F32.mul (F32.of_int 2) (F32.sub x x)) =? 0)
  && (if r <=? 13
      then negb (F32.ltb limit x)
      else F32.ltb limit x && negb (F32.ltb x limit) && negb (F32.leb x limit)).

Section FurtherVocabulary.
Context {B : Type} {NB : NotePriorityBuffer B}.

(** The fields the MIDI callbacks work on. *)
Definition midi_fields (s : State B) :=
  (midiNoteBuffer s, lastAfterTouchMessage s, lastChannelUsed s).

(** What the sketch relies on in a note buffer with the "last note" policy:
    a pressed note becomes the current one, and releasing another note than
    the current one leaves the current one. *)
Definition last_note_laws : Prop :=
  (forall b n v, nb_curNote (nb_noteOn b n v) = n)
  /\ (forall b n, n <> nb_curNote b -> nb_curNote (nb_noteOff b n) = nb_curNote b).

(** Recorded pressure sits on the current note. *)
Definition target_ok (s : State B) : Prop :=
  at_pressure (lastAfterTouchMessage s) <> 0 ->
  at_note (lastAfterTouchMessage s) = nb_curNote (midiNoteBuffer s).

(** The ribbon at rest at [r]: average, filtered value and the whole ring
    equal [r], and the baseline is 0 or (above the limit) [r] itself. *)
Definition at_rest (r : Z) (s : State B) : Prop :=
  accumulator s = F32.of_int r
  /\ currentValue s = F32.of_int r
  /\ Forall (fun x => x = F32.of_int r) (sample s)
  /\ ring_ok s
  /\ (baseline s = F32.of_int 0 \/ (13 < r /\ baseline s = F32.of_int r)).

End FurtherVocabulary.

(** A run that wraps the millisecond clock: the first regular bend is sent
    5 ms before [millis()] overflows, the finger then slides to 101, and the
    last tick reads the clock at 6 ms after the overflow. *)
Definition rollover_ticks : list Tick :=
  hold 100 1000 1 ++ hold 100 4294967291 1 ++ hold 101 4294967291 13.
Definition rollover_state : State (list byte) := state_after 100 rollover_ticks.
Definition rollover_tick : Tick := quiet 101 6.

(** * Properties *)

Section MidiFacts.
Context {B : Type} {NB : NotePriorityBuffer B}.
Implicit Types (s : State B) (c : Callback).

Lemma set_lastChannelUsed_twice s ch :
  set_lastChannelUsed (set_lastChannelUsed s ch) ch = set_lastChannelUsed s ch.
Proof. reflexivity. Qed.

Lemma noteOff_clears s ch n v :
  at_note (lastAfterTouchMessage s) = n ->
  at_pressure (lastAfterTouchMessage s) <> 0 ->
  MIDINoteOffHandler s ch n v =
    (set_midiNoteBuffer
       (set_lastAfterTouchMessage (set_lastChannelUsed s ch) at_clear)
       (nb_noteOff (midiNoteBuffer s) n),
     [MidiSend AfterTouchPoly (at_note (lastAfterTouchMessage s)) 0
        (at_channel (lastAfterTouchMessage s))]).
Proof.
  intros Hn Hp. unfold MIDINoteOffHandler. cbn [lastAfterTouchMessage set_lastChannelUsed].
  rewrite Hn, Z.eqb_refl.
  destruct (Z.eqb_spec (at_pressure (lastAfterTouchMessage s)) 0) as [E|_]; [contradiction|].
  reflexivity.
Qed.

Lemma noteOn_clears s ch n v :
  at_note (lastAfterTouchMessage s) <> n ->
  at_pressure (lastAfterTouchMessage s) <> 0 ->
  v <> 0 ->
  MIDINoteOnHandler s ch n v =
    (set_midiNoteBuffer
       (set_lastAfterTouchMessage (set_lastChannelUsed s ch) at_clear)
       (nb_noteOn (midiNoteBuffer s) n v),
     [MidiSend AfterTouchPoly (at_note (lastAfterTouchMessage s)) 0
        (at_channel (lastAfterTouchMessage s))]).
Proof.
  intros Hn Hp Hv. unfold MIDINoteOnHandler.
  destruct (Z.eqb_spec v 0) as [E|_]; [contradiction|].
  cbn [lastAfterTouchMessage set_lastChannelUsed].
  destruct (Z.eqb_spec (at_note (lastAfterTouchMessage s)) n) as [E|_]; [contradiction|].
  destruct (Z.eqb_spec (at_pressure (lastAfterTouchMessage s)) 0) as [E|_]; [contradiction|].
  reflexivity.
Qed.

Lemma dispatch_clears s c :
  at_pressure (lastAfterTouchMessage s) <> 0 ->
  releases c (at_note (lastAfterTouchMessage s))
  \/ supersedes c (at_note (lastAfterTouchMessage s)) ->
  dispatch s c =
    (set_midiNoteBuffer
       (set_lastAfterTouchMessage (set_lastChannelUsed s (channel_of c)) at_clear)
       (buffer_after (midiNoteBuffer s) c),
     [MidiSend AfterTouchPoly (at_note (lastAfterTouchMessage s)) 0
        (at_channel (lastAfterTouchMessage s))]).
Proof.
  intros Hp [Hr | Hs].
  - destruct c as [ch m v | ch m v | ]; cbn in Hr; [ | | contradiction ].
    + destruct Hr as [-> ->]. cbn [dispatch channel_of buffer_after].
      unfold MIDINoteOnHandler. cbn [Z.eqb].
      now rewrite noteOff_clears.
    + subst m. cbn [dispatch channel_of buffer_after]. now apply noteOff_clears.
  - destruct c as [ch m v | | ]; cbn in Hs; try contradiction.
    destruct Hs as [Hm Hv]. cbn [dispatch channel_of buffer_after].
    destruct (Z.eqb_spec v 0) as [E|_]; [contradiction|].
    apply noteOn_clears; auto.
Qed.

(** C7: a note-on with velocity 0 is handled exactly as the note-off for the
    same channel and note: the callbacks return the same next state and the
    same list of emitted messages. *)
Theorem noteOn_velocity0_same_as_noteOff s (ch n : byte) :
  dispatch s (OnNoteOn ch n 0) = dispatch s (OnNoteOff ch n 0).
Proof.
  cbn [dispatch]. unfold MIDINoteOnHandler. cbn [Z.eqb].
  unfold MIDINoteOffHandler. now rewrite set_lastChannelUsed_twice.
Qed.

(** C1: at every point a callback can run (after [setup], any number of
    [loop] iterations and any callbacks [cs] of the current
    [midiIO.read()]), if the recorded aftertouch message holds nonzero
    pressure and the next callback releases its note (a note-off, or the
    velocity-0 note-on that the sketch treats as one) or supersedes it (a
    note-on for another note; one with a velocity, since a velocity-0
    note-on is a note-off and makes no note current), then the callback
    emits exactly one message, the poly aftertouch with pressure 0 for the
    recorded note and channel, the recorded message is cleared, and only
    then is the note buffer updated. *)
Theorem pressure_cleared_on_release_or_supersede
    (reading : Z) (ticks : list Tick) (cs : list Callback) (c : Callback) :
  let s := fst (midi_read (state_after reading ticks) cs) in
  let last := lastAfterTouchMessage s in
  at_pressure last <> 0 ->
  releases c (at_note last) \/ supersedes c (at_note last) ->
  snd (dispatch s c) = [MidiSend AfterTouchPoly (at_note last) 0 (at_channel last)]
  /\ lastAfterTouchMessage (fst (dispatch s c)) = at_clear
  /\ fst (dispatch s c) =
       set_midiNoteBuffer
         (set_lastAfterTouchMessage (set_lastChannelUsed s (channel_of c)) at_clear)
         (buffer_after (midiNoteBuffer s) c).
Proof.
  intros s last Hp Hc. subst last.
  rewrite (dispatch_clears s c Hp Hc). auto.
Qed.

(** The callbacks leave the ribbon's variables alone. *)
Lemma dispatch_ribbon_fields s c :
  ribbon_fields (fst (dispatch s c)) = ribbon_fields s.
Proof.
  destruct c as [ch n v | ch n v | m d1 d2 ch]; cbn [dispatch].
  - unfold MIDINoteOnHandler, MIDINoteOffHandler.
    repeat match goal with |- context [if ?b then _ else _] => destruct b end;
      reflexivity.
  - unfold MIDINoteOffHandler.
    repeat match goal with |- context [if ?b then _ else _] => destruct b end;
      reflexivity.
  - unfold MIDIThruHandler. destruct (is_AfterTouchChannel m); reflexivity.
Qed.

Lemma midi_read_ribbon_fields cs : forall s,
  ribbon_fields (fst (midi_read s cs)) = ribbon_fields s.
Proof.
  induction cs as [|c cs IH]; intros s; [reflexivity|].
  cbn [midi_read].
  pose proof (dispatch_ribbon_fields s c) as Hd.
  destruct (dispatch s c) as [s1 o1]. specialize (IH s1).
  destruct (midi_read s1 cs) as [s2 o2]. cbn [fst] in *. congruence.
Qed.

(** The callbacks never call [sendPitchBend]. *)
Lemma dispatch_no_bends s c : bends (snd (dispatch s c)) = [].
Proof.
  destruct c as [ch n v | ch n v | m d1 d2 ch]; cbn [dispatch].
  - unfold MIDINoteOnHandler, MIDINoteOffHandler.
    repeat match goal with |- context [if ?b then _ else _] => destruct b end;
      reflexivity.
  - unfold MIDINoteOffHandler.
    repeat match goal with |- context [if ?b then _ else _] => destruct b end;
      reflexivity.
  - unfold MIDIThruHandler. destruct (is_AfterTouchChannel m); reflexivity.
Qed.

Lemma bends_app (t1 t2 : list Effect) : bends (t1 ++ t2) = bends t1 ++ bends t2.
Proof.
  induction t1 as [|e t1 IH]; [reflexivity|].
  destruct e; cbn [bends app]; rewrite ?IH; reflexivity.
Qed.

Lemma midi_read_no_bends cs : forall s, bends (snd (midi_read s cs)) = [].
Proof.
  induction cs as [|c cs IH]; intros s; [reflexivity|].
  cbn [midi_read].
  pose proof (dispatch_no_bends s c) as Hd.
  destruct (dispatch s c) as [s1 o1]. specialize (IH s1).
  destruct (midi_read s1 cs) as [s2 o2]. cbn [snd] in *.
  now rewrite bends_app, Hd, IH.
Qed.

End MidiFacts.

(** ** Comparisons of floats *)

Lemma SFcompare_antisym (x y : float) :
  SFcompare y x = option_map CompOpp (SFcompare x y).
Proof.
  destruct x as [sx|sx| |sx mx ex], y as [sy|sy| |sy my ey]; cbn;
    try destruct sx; try destruct sy; try reflexivity;
    rewrite (Z.compare_antisym ex ey); destruct (ex ?= ey); cbn;
    rewrite ?CompOpp_involutive; try reflexivity.
  all: f_equal;
    first [ exact (Pos.compare_cont_antisym my mx Eq)
          | exact (eq_sym (Pos.compare_cont_antisym mx my Eq)) ].
Qed.

Lemma ltb_true_flip (x y : float) :
  F32.ltb x y = true -> F32.ltb y x = false /\ F32.leb y x = false.
Proof.
  unfold F32.ltb, F32.leb, SFltb, SFleb. rewrite (SFcompare_antisym x y).
  destruct (SFcompare x y) as [[]|]; cbn; intros H; try discriminate; auto.
Qed.

Lemma ltb_true_neq (x y : float) : F32.ltb x y = true -> F32.eqb y x = false.
Proof.
  unfold F32.ltb, F32.eqb, SFltb, SFeqb. rewrite (SFcompare_antisym x y).
  destruct (SFcompare x y) as [[]|]; cbn; intros H; try discriminate; auto.
Qed.

(** The macro [abs] compares like the absolute value of IEEE 754 (they
    differ in the sign of a zero only). *)
Lemma arduino_abs_ltb (x y : float) :
  F32.ltb (arduino_abs x) y = F32.ltb (SFabs x) y.
Proof.
  unfold arduino_abs, F32.ltb, F32.neg, fzero, SFltb.
  destruct x as [sx|sx| |sx mx ex]; try destruct sx; cbn;
    destruct y as [sy|sy| |sy my ey]; reflexivity.
Qed.

(** [|d| < y] says [-y < d] and [d < y], for a positive finite [y]. *)
Lemma SFabs_ltb_two_sided (d : float) (my : positive) (ey : Z) :
  F32.ltb (SFabs d) (S754_finite false my ey)
  = F32.ltb (S754_finite true my ey) d && F32.ltb d (S754_finite false my ey).
Proof.
  unfold F32.ltb, SFltb.
  destruct d as [sd|sd| |sd md ed]; try destruct sd; cbn; try reflexivity.
  rewrite (Z.compare_antisym ed ey). destruct (ed ?= ey); cbn; try reflexivity.
    change (Pos.compare_cont Eq md my) with (Pos.compare_cont (CompOpp Eq) md my).
    rewrite <- (Pos.compare_cont_antisym my md Eq).
    destruct (Pos.compare_cont Eq my md); reflexivity.
Qed.

(** ** Machine arithmetic *)

Lemma wrap_int_small (z : Z) : - 2^31 <= z < 2^31 -> wrap_int z = z.
Proof. intros H. unfold wrap_int. rewrite Z.mod_small; lia. Qed.

Lemma int_rem_small (z : Z) : 0 <= z < 20 -> int_rem z slope_xsize = z.
Proof. intros H. unfold int_rem, slope_xsize. apply Z.rem_small; lia. Qed.

Section RibbonFacts.
Context {B : Type} {NB : NotePriorityBuffer B}.
Implicit Types (s : State B) (i : Tick).

Lemma loop_unfold s i :
  loop s i =
    (advance (fst (ribbon_bend (filtered s i) (millis_test i) (millis_stamp i))),
     snd (midi_read s (midi_in i))
       ++ snd (ribbon_bend (filtered s i) (millis_test i) (millis_stamp i))).
Proof.
  unfold loop, filtered. destruct (midi_read s (midi_in i)) as [s1 o1]. cbn [fst snd].
  destruct (ribbon_bend _ _ _) as [s2 o2]. reflexivity.
Qed.

Lemma run_from_app (t1 t2 : list Tick) : forall s,
  fst (run_from s (t1 ++ t2)) = fst (run_from (fst (run_from s t1)) t2).
Proof.
  induction t1 as [|i t1 IH]; intros s; [reflexivity|].
  cbn [app run_from]. destruct (loop s i) as [s1 o1]. specialize (IH s1).
  destruct (run_from s1 (t1 ++ t2)) as [s2 o2].
  destruct (run_from s1 t1) as [s3 o3]. exact IH.
Qed.

Lemma state_after_snoc (reading : Z) (ticks : list Tick) i :
  state_after reading (ticks ++ [i]) = fst (loop (state_after reading ticks) i).
Proof.
  unfold state_after, run. rewrite run_from_app. cbn [run_from].
  destruct (loop _ i) as [s1 o1]. reflexivity.
Qed.

(** Induction over the iterations of [loop] after [setup]. *)
Lemma reachable_ind (P : State B -> Prop) (reading : Z) :
  P (setup reading) ->
  (forall s i, P s -> P (fst (loop s i))) ->
  forall ticks, P (state_after reading ticks).
Proof.
  intros H0 Hstep ticks. induction ticks as [|i ticks IH] using rev_ind.
  - exact H0.
  - rewrite state_after_snoc. now apply Hstep.
Qed.

(** *** What each stage changes *)

Lemma filtered_frame s i :
  baseline (filtered s i) = baseline s
  /\ loopCount (filtered s i) = loopCount s
  /\ lastMessage (filtered s i) = lastMessage s
  /\ lastBend (filtered s i) = lastBend s.
Proof.
  unfold filtered. pose proof (midi_read_ribbon_fields (midi_in i) s) as Hm.
  unfold ribbon_fields in Hm. injection Hm as Hb Ha Hs Hc Hl Ht Hd.
  unfold ribbon_filter.
  destruct (slope_ok _ _); cbn; auto.
Qed.

Lemma filtered_accumulator s i :
  accumulator (filtered s i) = ema (accumulator s) (F32.of_int (analog i)).
Proof.
  unfold filtered. pose proof (midi_read_ribbon_fields (midi_in i) s) as Hm.
  unfold ribbon_fields in Hm. injection Hm as Hb Ha Hs Hc Hl Ht Hd.
  unfold ribbon_filter. destruct (slope_ok _ _); cbn; now rewrite Ha.
Qed.

Lemma filtered_sample s i :
  sample (filtered s i) =
    array_set (sample s) (write_index s) (ema (accumulator s) (F32.of_int (analog i))).
Proof.
  unfold filtered. pose proof (midi_read_ribbon_fields (midi_in i) s) as Hm.
  unfold ribbon_fields in Hm. injection Hm as Hb Ha Hs Hc Hl Ht Hd.
  unfold ribbon_filter, write_index. destruct (slope_ok _ _); cbn; now rewrite Ha, Hs, Hl.
Qed.

Lemma filtered_currentValue s i :
  currentValue (filtered s i) =
    if slope_ok (accumulator (filtered s i)) (earlier_sample s (analog i))
    then accumulator (filtered s i) else currentValue s.
Proof.
  rewrite filtered_accumulator.
  unfold filtered. pose proof (midi_read_ribbon_fields (midi_in i) s) as Hm.
  unfold ribbon_fields in Hm. injection Hm as Hb Ha Hs Hc Hl Ht Hd.
  unfold ribbon_filter, earlier_sample, write_index, read_index. cbn.
  rewrite Ha, Hs, Hl. destruct (slope_ok _ _); cbn; auto.
Qed.

Lemma ribbon_bend_frame s (t1 t2 : Z) :
  accumulator (fst (ribbon_bend s t1 t2)) = accumulator s
  /\ sample (fst (ribbon_bend s t1 t2)) = sample s
  /\ currentValue (fst (ribbon_bend s t1 t2)) = currentValue s
  /\ loopCount (fst (ribbon_bend s t1 t2)) = loopCount s.
Proof.
  unfold ribbon_bend.
  repeat match goal with |- context [if ?b then _ else _] => destruct b end;
    cbn; auto.
Qed.

Lemma advance_frame s :
  baseline (advance s) = baseline s
  /\ accumulator (advance s) = accumulator s
  /\ sample (advance s) = sample s
  /\ currentValue (advance s) = currentValue s
  /\ lastMessage (advance s) = lastMessage s
  /\ lastBend (advance s) = lastBend s.
Proof.
  unfold advance. cbn. destruct (_ =? 0); cbn; auto 10.
Qed.

Lemma advance_loopCount s :
  0 <= loopCount s <= 19 ->
  loopCount (advance s) = (loopCount s + 1) mod 20.
Proof.
  intros H. unfold advance. cbn.
  rewrite wrap_int_small by lia.
  destruct (Z.eq_dec (loopCount s) 19) as [E|E].
  - rewrite E. reflexivity.
  - rewrite int_rem_small by lia.
    destruct (Z.eqb_spec (loopCount s + 1) 0); [lia|]. cbn.
    rewrite Z.mod_small; lia.
Qed.

Lemma loop_fields s i :
  let s' := fst (loop s i) in
  accumulator s' = accumulator (filtered s i)
  /\ sample s' = sample (filtered s i)
  /\ currentValue s' = currentValue (filtered s i)
  /\ baseline s' = baseline (fst (ribbon_bend (filtered s i) (millis_test i) (millis_stamp i)))
  /\ lastMessage s' = lastMessage (fst (ribbon_bend (filtered s i) (millis_test i) (millis_stamp i)))
  /\ lastBend s' = lastBend (fst (ribbon_bend (filtered s i) (millis_test i) (millis_stamp i))).
Proof.
  cbn zeta. rewrite loop_unfold. cbn [fst].
  destruct (advance_frame (fst (ribbon_bend (filtered s i) (millis_test i) (millis_stamp i))))
    as (Hb & Ha & Hs & Hc & Ht & Hd).
  destruct (ribbon_bend_frame (filtered s i) (millis_test i) (millis_stamp i))
    as (Ha' & Hs' & Hc' & _).
  rewrite Hb, Ha, Hs, Hc, Ht, Hd, Ha', Hs', Hc'. auto 10.
Qed.

Lemma loop_bends s i :
  bends (snd (loop s i)) =
    bends (snd (ribbon_bend (filtered s i) (millis_test i) (millis_stamp i))).
Proof. rewrite loop_unfold. cbn [snd]. now rewrite bends_app, midi_read_no_bends. Qed.

(** *** The ring buffer index *)

Lemma in_array_intro (a : list float) (k : Z) :
  0 <= k < Z.of_nat (length a) -> in_array a k = true.
Proof.
  intros [H1 H2]. unfold in_array.
  apply andb_true_intro; split; [now apply Z.leb_le | now apply Z.ltb_lt].
Qed.

Lemma array_set_length (a : list float) (k : Z) (x : float) :
  length (array_set a k x) = length a.
Proof. unfold array_set. destruct (in_array a k); [apply length_insert|reflexivity]. Qed.

Lemma ring_ok_setup (reading : Z) : ring_ok (setup reading).
Proof. split; cbn; [lia|reflexivity]. Qed.

Lemma ring_ok_loop s i : ring_ok s -> ring_ok (fst (loop s i)).
Proof.
  intros [Hl Hn]. unfold ring_ok.
  destruct (loop_fields s i) as (_ & Hs & _). rewrite Hs, filtered_sample, array_set_length.
  split; [|exact Hn].
  rewrite loop_unfold. cbn [fst].
  destruct (ribbon_bend_frame (filtered s i) (millis_test i) (millis_stamp i))
    as (_ & _ & _ & Hl').
  destruct (filtered_frame s i) as (_ & Hl'' & _).
  rewrite advance_loopCount by (rewrite Hl', Hl''; lia).
  rewrite Hl', Hl''.
  pose proof (Z.mod_pos_bound (loopCount s + 1) 20). lia.
Qed.

Lemma ring_ok_reachable (reading : Z) (ticks : list Tick) :
  ring_ok (state_after reading ticks).
Proof.
  apply reachable_ind; [apply ring_ok_setup|]. intros; now apply ring_ok_loop.
Qed.

(** C8: at the start of every iteration of [loop], whatever the number of
    iterations and whatever the hardware delivered, [loopCount] lies in
    [0, 19] and [sample] has its 20 elements; so the write index
    [loopCount % 20] and the read index [(loopCount+1) % 20] both fall
    inside the array at the moment [loop] uses them. *)
Theorem sample_access_in_bounds (reading : Z) (ticks : list Tick) (i : Tick) :
  let s := state_after reading ticks in
  let s1 := fst (midi_read s (midi_in i)) in
  let acc := ema (accumulator s1) (F32.of_int (analog i)) in
  0 <= loopCount s <= 19
  /\ length (sample s1) = 20%nat
  /\ 0 <= write_index s1 < 20
  /\ 0 <= read_index s1 < 20
  /\ in_array (sample s1) (write_index s1) = true
  /\ in_array (array_set (sample s1) (write_index s1) acc) (read_index s1) = true.
Proof.
  cbn zeta. destruct (ring_ok_reachable reading ticks) as [Hl Hn].
  pose proof (midi_read_ribbon_fields (midi_in i) (state_after reading ticks)) as Hm.
  unfold ribbon_fields in Hm. injection Hm as _ _ Hs _ Hl' _ _.
  set (s1 := fst (midi_read (state_after reading ticks) (midi_in i))) in *.
  assert (Hw : 0 <= write_index s1 < 20).
  { unfold write_index. rewrite Hl', int_rem_small; lia. }
  assert (Hr : 0 <= read_index s1 < 20).
  { unfold read_index, int_rem, slope_xsize. rewrite Hl', wrap_int_small by lia.
    rewrite Z.rem_mod_nonneg by lia.
    pose proof (Z.mod_pos_bound (loopCount (state_after reading ticks) + 1) 20). lia. }
  repeat split; try lia.
  - now rewrite Hs.
  - apply in_array_intro. rewrite Hs, Hn. lia.
  - apply in_array_intro. rewrite array_set_length, Hs, Hn. lia.
Qed.

(** *** The baseline logic, branch by branch *)

Lemma ribbon_bend_contact_start s (t1 t2 : Z) :
  F32.ltb (baseline s) limit = true ->
  F32.ltb limit (currentValue s) = true ->
  ribbon_bend s t1 t2 =
    (set_baseline s (currentValue s), strobe (MidiPitchBend 0 (lastChannelUsed s))).
Proof. intros H1 H2. unfold ribbon_bend. fold limit. now rewrite H1, H2. Qed.

Lemma ribbon_bend_idle s (t1 t2 : Z) :
  F32.ltb (baseline s) limit = true ->
  F32.ltb limit (currentValue s) = false ->
  ribbon_bend s t1 t2 = (s, []).
Proof. intros H1 H2. unfold ribbon_bend. fold limit. now rewrite H1, H2. Qed.

Lemma ribbon_bend_contact_end s (t1 t2 : Z) :
  F32.ltb (baseline s) limit = false ->
  F32.leb (currentValue s) limit = true ->
  ribbon_bend s t1 t2 =
    (set_baseline s (F32.of_int 0), strobe (MidiPitchBend 0 (lastChannelUsed s))).
Proof. intros H1 H2. unfold ribbon_bend. fold limit. now rewrite H1, H2. Qed.

Lemma ribbon_bend_send s (t1 t2 : Z) :
  F32.ltb (baseline s) limit = false ->
  F32.leb (currentValue s) limit = false ->
  bend_of s <> lastBend s ->
  10 < wrap_ulong (t1 - lastMessage s) ->
  ribbon_bend s t1 t2 =
    (set_lastBend (set_lastMessage s t2) (bend_of s),
     strobe (MidiPitchBend (bend_of s) (lastChannelUsed s))).
Proof.
  intros H1 H2 H3 H4. unfold ribbon_bend. fold limit. rewrite H1, H2.
  destruct (Z.eqb_spec (bend_of s) (lastBend s)) as [E|_]; [contradiction|]. cbn [negb].
  destruct (Z.ltb_spec 10 (wrap_ulong (t1 - lastMessage s))); [reflexivity|lia].
Qed.

Lemma ribbon_bend_hold s (t1 t2 : Z) :
  F32.ltb (baseline s) limit = false ->
  F32.leb (currentValue s) limit = false ->
  ~ (bend_of s <> lastBend s /\ 10 < wrap_ulong (t1 - lastMessage s)) ->
  ribbon_bend s t1 t2 = (s, []).
Proof.
  intros H1 H2 H3. unfold ribbon_bend. fold limit. rewrite H1, H2.
  destruct (Z.eqb_spec (bend_of s) (lastBend s)) as [E|E]; [reflexivity|]. cbn [negb].
  destruct (Z.ltb_spec 10 (wrap_ulong (t1 - lastMessage s))); [|reflexivity].
  exfalso. apply H3. split; assumption.
Qed.

Lemma contact_cases s i :
  contact_start s i = true \/ contact_end s i = true ->
  ribbon_bend (filtered s i) (millis_test i) (millis_stamp i) =
    (set_baseline (filtered s i)
       (if contact_start s i then currentValue (filtered s i) else F32.of_int 0),
     strobe (MidiPitchBend 0 (lastChannelUsed (filtered s i)))).
Proof.
  unfold contact_start, contact_end.
  destruct (F32.ltb (baseline (filtered s i)) limit) eqn:Hb; cbn [negb andb];
    intros [H | H]; try discriminate.
  - rewrite H. now apply ribbon_bend_contact_start.
  - now apply ribbon_bend_contact_end.
Qed.

Lemma bending_cases s i :
  bending s i = true ->
  F32.ltb (baseline (filtered s i)) limit = false
  /\ F32.leb (currentValue (filtered s i)) limit = false.
Proof.
  unfold bending.
  destruct (F32.ltb _ limit), (F32.leb _ limit); cbn; intros H; try discriminate; auto.
Qed.

(** C5: on a contact start (baseline below the limit 13, filtered value
    above it) and on a contact end (baseline not below the limit, filtered
    value at most 13), the iteration itself sends one pitch bend and its
    value is 0, whatever the clock, [lastMessage] and [lastBend] are; the
    baseline becomes the filtered value on a start and 0 on an end. *)
Theorem contact_transition_sends_reset s i :
  contact_start s i = true \/ contact_end s i = true ->
  bends (snd (loop s i)) = [0]
  /\ snd (ribbon_bend (filtered s i) (millis_test i) (millis_stamp i))
     = strobe (MidiPitchBend 0 (lastChannelUsed (filtered s i)))
  /\ baseline (fst (loop s i))
     = (if contact_start s i then currentValue (fst (loop s i)) else F32.of_int 0).
Proof.
  intros H. destruct (loop_fields s i) as (_ & _ & Hc & Hb & _).
  rewrite loop_bends, Hb, Hc, (contact_cases s i H). cbn [fst snd]. auto.
Qed.

Lemma bending_step s i :
  bending s i = true ->
  let bend := bend_of (filtered s i) in
  let s' := fst (loop s i) in
  (bend <> lastBend s /\ 10 < elapsed s i ->
     bends (snd (loop s i)) = [bend]
     /\ lastBend s' = bend /\ lastMessage s' = millis_stamp i)
  /\ (~ (bend <> lastBend s /\ 10 < elapsed s i) ->
     bends (snd (loop s i)) = []
     /\ lastBend s' = lastBend s /\ lastMessage s' = lastMessage s).
Proof.
  intros Hb. cbn zeta. destruct (bending_cases s i Hb) as [H1 H2].
  destruct (loop_fields s i) as (_ & _ & _ & _ & Ht & Hd).
  destruct (filtered_frame s i) as (_ & _ & Ft & Fd).
  rewrite loop_bends, Ht, Hd. unfold elapsed. rewrite <- Ft, <- Fd.
  split; intros H.
  - destruct H as [Hne Hel]. rewrite (ribbon_bend_send _ _ _ H1 H2 Hne Hel). cbn. auto.
  - rewrite (ribbon_bend_hold _ _ _ H1 H2 H). cbn. auto.
Qed.

(** C3, as the code has it: while in contact, an iteration sends a regular
    pitch bend exactly when the computed bend differs from [lastBend] and
    MORE than 10 ms (not: at least 10 ms) lie between [lastMessage] and the
    clock, the difference being taken modulo 2^32; it then records the bend
    and the time of the send.  So after a send, an iteration whose clock is
    at most 10 ms later sends nothing, and one whose clock is more than
    10 ms later and whose bend differs sends its bend. *)
Theorem bend_throttle s i :
  bending s i = true ->
  let bend := bend_of (filtered s i) in
  let s' := fst (loop s i) in
  (bends (snd (loop s i)) = [bend] <-> bend <> lastBend s /\ 10 < elapsed s i)
  /\ (bends (snd (loop s i)) = [] <-> ~ (bend <> lastBend s /\ 10 < elapsed s i))
  /\ (bends (snd (loop s i)) = [bend] ->
      lastBend s' = bend /\ lastMessage s' = millis_stamp i
      /\ forall i2, bending s' i2 = true ->
           (wrap_ulong (millis_test i2 - millis_stamp i) <= 10 ->
              bends (snd (loop s' i2)) = [])
           /\ (10 < wrap_ulong (millis_test i2 - millis_stamp i) ->
               bend_of (filtered s' i2) <> bend ->
               bends (snd (loop s' i2)) = [bend_of (filtered s' i2)])).
Proof.
  intros Hb. cbn zeta. destruct (bending_step s i Hb) as [Hsend Hhold].
  assert (Hdec : (bend_of (filtered s i) <> lastBend s /\ 10 < elapsed s i)
                 \/ ~ (bend_of (filtered s i) <> lastBend s /\ 10 < elapsed s i)).
  { destruct (Z.eq_dec (bend_of (filtered s i)) (lastBend s));
      destruct (Z_lt_dec 10 (elapsed s i)); intuition. }
  assert (Hiff : bends (snd (loop s i)) = [bend_of (filtered s i)]
                 <-> bend_of (filtered s i) <> lastBend s /\ 10 < elapsed s i).
  { split; [|apply Hsend]. intros E. destruct Hdec as [H|H]; [exact H|].
    destruct (Hhold H) as [E' _]. rewrite E' in E. discriminate. }
  split; [exact Hiff|]. split.
  - split; [|apply Hhold]. intros E H. destruct (Hsend H) as [E' _].
    rewrite E' in E. discriminate.
  - intros E. apply Hiff in E. destruct (Hsend E) as (_ & Hd & Ht).
    split; [exact Hd|]. split; [exact Ht|]. intros i2 Hb2.
    destruct (bending_step _ i2 Hb2) as [Hsend2 Hhold2].
    unfold elapsed in Hsend2, Hhold2. rewrite Ht, Hd in Hsend2, Hhold2. split.
    + intros Hle. apply Hhold2. intros [_ Hlt]. lia.
    + intros Hlt Hne. apply Hsend2. split; assumption.
Qed.

(** The two resets do not touch the throttle. *)
Lemma ribbon_bend_reset_frame s (t1 t2 : Z) :
  F32.ltb (baseline s) limit = true
  \/ F32.leb (currentValue s) limit = true ->
  lastBend (fst (ribbon_bend s t1 t2)) = lastBend s
  /\ lastMessage (fst (ribbon_bend s t1 t2)) = lastMessage s.
Proof.
  intros H. unfold ribbon_bend. fold limit.
  destruct (F32.ltb (baseline s) limit) eqn:H1.
  - destruct (F32.ltb limit (currentValue s)); split; reflexivity.
  - destruct H as [H|H]; [discriminate|]. rewrite H. split; reflexivity.
Qed.

Lemma reset_keeps_throttle s i :
  contact_start s i = true \/ contact_end s i = true ->
  lastBend (fst (loop s i)) = lastBend s
  /\ lastMessage (fst (loop s i)) = lastMessage s.
Proof.
  intros H. destruct (loop_fields s i) as (_ & _ & _ & _ & Ht & Hd).
  destruct (filtered_frame s i) as (_ & _ & Ft & Fd).
  rewrite Ht, Hd, <- Ft, <- Fd. apply ribbon_bend_reset_frame.
  unfold contact_start, contact_end in H.
  destruct H as [H|H]; apply andb_prop in H; tauto.
Qed.

(** The branch taken by an iteration. *)
Lemma branch_cases s i :
  contact_start s i = true \/ contact_end s i = true \/ bending s i = true
  \/ (F32.ltb (baseline (filtered s i)) limit = true
      /\ F32.ltb limit (currentValue (filtered s i)) = false).
Proof.
  unfold contact_start, contact_end, bending.
  destruct (F32.ltb (baseline (filtered s i)) limit),
    (F32.ltb limit (currentValue (filtered s i))),
    (F32.leb (currentValue (filtered s i)) limit); cbn; auto.
Qed.

(** The throttle changes only with a regular send. *)
Lemma throttle_changes_only_on_send s i :
  lastBend (fst (loop s i)) <> lastBend s
  \/ lastMessage (fst (loop s i)) <> lastMessage s ->
  bending s i = true
  /\ bends (snd (loop s i)) = [bend_of (filtered s i)]
  /\ lastBend (fst (loop s i)) = bend_of (filtered s i)
  /\ lastMessage (fst (loop s i)) = millis_stamp i.
Proof.
  intros Hch.
  destruct (branch_cases s i) as [H | [H | [H | [H1 H2]]]].
  - destruct (reset_keeps_throttle s i (or_introl H)) as [E1 E2].
    rewrite E1, E2 in Hch. destruct Hch; contradiction.
  - destruct (reset_keeps_throttle s i (or_intror H)) as [E1 E2].
    rewrite E1, E2 in Hch. destruct Hch; contradiction.
  - split; [exact H|]. destruct (bending_step s i H) as [Hsend Hhold].
    destruct (Z.eq_dec (bend_of (filtered s i)) (lastBend s)) as [E|E];
      [|destruct (Z_lt_dec 10 (elapsed s i)) as [L|L]].
    + destruct Hhold as (_ & E1 & E2); [intros [N _]; contradiction|].
      rewrite E1, E2 in Hch. destruct Hch; contradiction.
    + apply Hsend. split; assumption.
    + destruct Hhold as (_ & E1 & E2); [intros [_ N]; contradiction|].
      rewrite E1, E2 in Hch. destruct Hch; contradiction.
  - destruct (loop_fields s i) as (_ & _ & _ & _ & Ht & Hd).
    destruct (filtered_frame s i) as (_ & _ & Ft & Fd).
    destruct (ribbon_bend_reset_frame (filtered s i) (millis_test i) (millis_stamp i)
                (or_introl H1)) as [E1 E2].
    rewrite Ht, Hd, E1, E2, Ft, Fd in Hch. destruct Hch; contradiction.
Qed.

(** *** The baseline *)

Lemma baseline_ok_setup (reading : Z) : baseline_ok (setup reading).
Proof. left. reflexivity. Qed.

Lemma ribbon_bend_baseline_ok s (t1 t2 : Z) :
  baseline_ok s -> baseline_ok (fst (ribbon_bend s t1 t2)).
Proof.
  intros Hs. unfold baseline_ok, ribbon_bend. fold limit.
  destruct (F32.ltb (baseline s) limit) eqn:H1.
  - destruct (F32.ltb limit (currentValue s)) eqn:H2; [right; exact H2|exact Hs].
  - destruct (F32.leb (currentValue s) limit); [left; reflexivity|].
    destruct (negb _); [destruct (10 <? _)|]; exact Hs.
Qed.

Lemma baseline_ok_loop s i : baseline_ok s -> baseline_ok (fst (loop s i)).
Proof.
  intros Hs. unfold baseline_ok.
  destruct (loop_fields s i) as (_ & _ & _ & Hb & _).
  destruct (filtered_frame s i) as (Fb & _).
  rewrite Hb. apply ribbon_bend_baseline_ok.
  unfold baseline_ok. rewrite Fb. exact Hs.
Qed.

(** C10: after [setup] and after every iteration of [loop] the baseline is
    0 or greater than 13, never inside (0, 13]; so the test
    [baseline < baseline_limit] holds exactly when [baseline == 0]. *)
Theorem baseline_zero_or_above_limit (reading : Z) (ticks : list Tick) :
  let b := baseline (state_after reading ticks) in
  (b = F32.of_int 0 \/ F32.ltb limit b = true)
  /\ F32.ltb (F32.of_int 0) b && F32.leb b limit = false
  /\ F32.ltb b limit = F32.eqb b (F32.of_int 0).
Proof.
  cbn zeta.
  assert (H : baseline_ok (state_after reading ticks)).
  { apply reachable_ind; [apply baseline_ok_setup|]. intros; now apply baseline_ok_loop. }
  split; [exact H|]. destruct H as [H | H].
  - rewrite H. split; reflexivity.
  - destruct (ltb_true_flip _ _ H) as [H1 H2]. rewrite H1, H2, andb_false_r.
    split; [reflexivity|]. symmetry.
    destruct (baseline (state_after reading ticks)) as [sb|sb| |sb mb eb];
      try discriminate H; try destruct sb; try discriminate H; reflexivity.
Qed.

(** *** The ring buffer content *)

Lemma aged_snoc_0 (reading : Z) (ticks : list Tick) i :
  aged reading (ticks ++ [i]) 0 = accumulator (state_after reading (ticks ++ [i])).
Proof.
  unfold aged, pushed. rewrite length_app. cbn [length].
  destruct (Nat.ltb_spec 0 (length ticks + 1)) as [_|H]; [|lia].
  replace (S (length ticks + 1 - 1 - 0)) with (length (ticks ++ [i]))
    by (rewrite length_app; cbn [length]; lia).
  now rewrite firstn_all.
Qed.

Lemma aged_snoc_S (reading : Z) (ticks : list Tick) i (d : nat) :
  aged reading (ticks ++ [i]) (S d) = aged reading ticks d.
Proof.
  unfold aged, pushed. rewrite length_app. cbn [length].
  destruct (Nat.ltb_spec d (length ticks)) as [H|H];
    destruct (Nat.ltb_spec (S d) (length ticks + 1)) as [H'|H']; try lia; [|reflexivity].
  replace (length ticks + 1 - 1 - S d)%nat with (length ticks - 1 - d)%nat by lia.
  now rewrite take_app_le by lia.
Qed.

Lemma ring_holds_setup (reading : Z) : ring_holds reading [].
Proof.
  intros d Hd. unfold aged. cbn [length Nat.ltb Nat.leb].
  change (sample (state_after reading []))
    with (replicate 20 (F32.of_int reading)).
  apply lookup_replicate_2.
  pose proof (Z.mod_pos_bound
                (loopCount (state_after reading []) + 19 - Z.of_nat d) 20). lia.
Qed.

Lemma loop_loopCount s i :
  0 <= loopCount s <= 19 ->
  loopCount (fst (loop s i)) = (loopCount s + 1) mod 20.
Proof.
  intros H. rewrite loop_unfold. cbn [fst].
  destruct (ribbon_bend_frame (filtered s i) (millis_test i) (millis_stamp i))
    as (_ & _ & _ & Hl').
  destruct (filtered_frame s i) as (_ & Hl'' & _).
  rewrite advance_loopCount by (rewrite Hl', Hl''; lia).
  now rewrite Hl', Hl''.
Qed.

Lemma loop_sample s i :
  ring_ok s ->
  sample (fst (loop s i))
  = <[Z.to_nat (loopCount s) := accumulator (fst (loop s i))]> (sample s).
Proof.
  intros [Hl Hn]. destruct (loop_fields s i) as (Ha & Hs & _).
  rewrite Hs, Ha, filtered_sample, filtered_accumulator.
  unfold array_set, write_index. rewrite int_rem_small by lia.
  rewrite in_array_intro; [reflexivity|]. rewrite Hn. lia.
Qed.

Lemma ring_holds_snoc (reading : Z) (ticks : list Tick) i :
  ring_holds reading ticks -> ring_holds reading (ticks ++ [i]).
Proof.
  intros IH d Hd. cbn zeta in *.
  destruct (ring_ok_reachable reading ticks) as [Hl Hn].
  rewrite state_after_snoc, loop_loopCount, loop_sample
    by first [exact Hl | split; assumption].
  rewrite <- state_after_snoc.
  set (lc := loopCount (state_after reading ticks)) in *.
  destruct d as [|d].
  - rewrite aged_snoc_0.
    replace (Z.to_nat (((lc + 1) mod 20 + 19 - Z.of_nat 0) mod 20)) with (Z.to_nat lc).
    + apply list_lookup_insert_eq. rewrite Hn. lia.
    + f_equal. destruct (Z.eq_dec lc 19) as [->|]; [reflexivity|].
      rewrite (Z.mod_small (lc + 1)) by lia.
      replace (lc + 1 + 19 - Z.of_nat 0) with (lc + 1 * 20) by lia.
      rewrite Z.mod_add by lia. rewrite Z.mod_small; lia.
  - rewrite aged_snoc_S.
    assert (E : ((lc + 1) mod 20 + 19 - Z.of_nat (S d)) mod 20
                = (lc + 19 - Z.of_nat d) mod 20).
    { destruct (Z.eq_dec lc 19) as [->|].
      - replace ((19 + 1) mod 20 + 19 - Z.of_nat (S d))
          with (19 + 19 - Z.of_nat d + (-1) * 20)
          by (change ((19 + 1) mod 20) with 0; lia).
        now rewrite Z.mod_add by lia.
      - rewrite (Z.mod_small (lc + 1)) by lia. f_equal. lia. }
    rewrite E, list_lookup_insert_ne; [apply IH; lia|].
    intros N. apply Z2Nat.inj in N; try lia.
    + destruct (Z_le_gt_dec (Z.of_nat d + 1) lc).
      * replace (lc + 19 - Z.of_nat d) with (lc - Z.of_nat d - 1 + 1 * 20) in N by lia.
        rewrite Z.mod_add, Z.mod_small in N; lia.
      * rewrite Z.mod_small in N; lia.
    + pose proof (Z.mod_pos_bound (lc + 19 - Z.of_nat d) 20). lia.
Qed.

Lemma ring_holds_reachable (reading : Z) (ticks : list Tick) :
  ring_holds reading ticks.
Proof.
  induction ticks as [|i ticks IH] using rev_ind;
    [apply ring_holds_setup | now apply ring_holds_snoc].
Qed.

(** The sample that an iteration reads after its own push is the one pushed
    19 iterations before it. *)
Lemma earlier_sample_aged (reading : Z) (ticks : list Tick) (r : Z) :
  earlier_sample (state_after reading ticks) r = aged reading ticks 18.
Proof.
  destruct (ring_ok_reachable reading ticks) as [Hl Hn].
  pose proof (ring_holds_reachable reading ticks 18%nat ltac:(lia)) as H.
  cbn zeta in H. unfold earlier_sample, write_index, read_index.
  set (s := state_after reading ticks) in *.
  rewrite int_rem_small by lia. rewrite wrap_int_small by lia.
  unfold int_rem, slope_xsize. rewrite Z.rem_mod_nonneg by lia.
  replace ((loopCount s + 19 - Z.of_nat 18) mod 20) with ((loopCount s + 1) mod 20) in H
    by (f_equal; lia).
  pose proof (Z.mod_pos_bound (loopCount s + 1) 20 ltac:(lia)) as Hb.
  unfold array_set. rewrite in_array_intro by (rewrite Hn; lia).
  unfold array_get. rewrite in_array_intro by (rewrite length_insert, Hn; lia).
  rewrite list_lookup_insert_ne; [now rewrite H|].
  intros N. apply Z2Nat.inj in N; try lia.
  destruct (Z.eq_dec (loopCount s) 19) as [E|E].
  - rewrite E in N. change ((19 + 1) mod 20) with 0 in N. lia.
  - rewrite Z.mod_small in N; lia.
Qed.

(** The rule of the slope filter, with the absolute value of IEEE 754. *)
Lemma slope_filter_rule (reading : Z) (ticks : list Tick) (i : Tick) :
  let k := length ticks in
  let s := state_after reading ticks in
  let s' := fst (loop s i) in
  let earlierSample :=
    if (k <? 19)%nat then F32.of_int reading
    else accumulator (state_after reading (take (k - 18) ticks)) in
  currentValue s' =
    if F32.ltb (SFabs (F32.sub (accumulator s') earlierSample)) (F32.of_int 1)
    then accumulator s' else currentValue s.
Proof.
  cbn zeta.
  destruct (loop_fields (state_after reading ticks) i) as (Ha & _ & Hc & _).
  rewrite Hc, Ha, filtered_currentValue, earlier_sample_aged.
  unfold slope_ok, slope_ysize, aged, pushed. rewrite arduino_abs_ltb.
  destruct (Nat.ltb_spec 18 (length ticks)) as [H|H];
    destruct (Nat.ltb_spec (length ticks) 19) as [H'|H']; try lia; [|reflexivity].
  replace (S (length ticks - 1 - 18)) with (length ticks - 18)%nat by lia.
  reflexivity.
Qed.

(** C4: an iteration pushes its new accumulator into the 20-slot ring and
    then sets [currentValue] to the accumulator exactly when the accumulator
    and the value pushed 19 iterations earlier (the seed of [setup] during
    the first 19 iterations) differ, in absolute value, by less than 1;
    otherwise [currentValue] keeps its value.  The absolute value is the one
    of IEEE 754 ([SFabs] of the Standard Library), and the test says that
    the difference lies strictly between -1 and 1: a falling slope is
    rejected like a rising one. *)
Theorem slope_filter_looks_19_ticks_back (reading : Z) (ticks : list Tick) (i : Tick) :
  let k := length ticks in
  let s := state_after reading ticks in
  let s' := fst (loop s i) in
  let earlierSample :=
    if (k <? 19)%nat then F32.of_int reading
    else accumulator (state_after reading (take (k - 18) ticks)) in
  let difference := F32.sub (accumulator s') earlierSample in
  accumulator s' = ema (accumulator s) (F32.of_int (analog i))
  /\ sample s' !! Z.to_nat (loopCount s) = Some (accumulator s')
  /\ currentValue s' =
       (if F32.ltb (SFabs difference) (F32.of_int 1)
        then accumulator s' else currentValue s)
  /\ F32.ltb (SFabs difference) (F32.of_int 1)
     = F32.ltb (F32.of_int (-1)) difference && F32.ltb difference (F32.of_int 1).
Proof.
  cbn zeta. destruct (ring_ok_reachable reading ticks) as [Hl Hn].
  destruct (loop_fields (state_after reading ticks) i) as (Ha & _ & Hc & _).
  split; [now rewrite Ha, filtered_accumulator|]. split.
  - rewrite loop_sample by (split; assumption).
    apply list_lookup_insert_eq. rewrite Hn. lia.
  - split; [apply slope_filter_rule|].
    apply (SFabs_ltb_two_sided _ 8388608 (-23)).
Qed.

(** *** The slope filter on the ribbon's data *)

Lemma loop_currentValue s i :
  currentValue (fst (loop s i)) =
    if slope_test (accumulator s) (sample s) (loopCount s) (analog i)
    then ema (accumulator s) (F32.of_int (analog i))
    else currentValue s.
Proof.
  destruct (loop_fields s i) as (_ & _ & Hc & _).
  now rewrite Hc, filtered_currentValue, filtered_accumulator.
Qed.

Lemma loop_accumulator s i :
  accumulator (fst (loop s i)) = ema (accumulator s) (F32.of_int (analog i)).
Proof.
  destruct (loop_fields s i) as (Ha & _). now rewrite Ha, filtered_accumulator.
Qed.

Lemma loop_sample_set s i :
  sample (fst (loop s i)) =
    array_set (sample s) (write_index s) (ema (accumulator s) (F32.of_int (analog i))).
Proof.
  destruct (loop_fields s i) as (_ & Hs & _). now rewrite Hs, filtered_sample.
Qed.

(** From the steady state after [setup] with reading 0. *)
Lemma steady0_first i :
  currentValue (fst (loop (setup 0) i)) =
    if accepted_at_once (analog i)
    then ema (F32.of_int 0) (F32.of_int (analog i))
    else currentValue (setup 0).
Proof. apply loop_currentValue. Qed.

Lemma steady0_second i1 i2 :
  analog i2 = analog i1 ->
  rejected_twice (analog i1) = true ->
  currentValue (fst (loop (setup 0) i1)) = currentValue (setup 0)
  /\ currentValue (fst (loop (fst (loop (setup 0) i1)) i2)) = currentValue (setup 0).
Proof.
  intros Hr Hrej. unfold rejected_twice in Hrej. cbn zeta in Hrej.
  apply andb_prop in Hrej. destruct Hrej as [R1 R2].
  apply negb_true_iff in R1, R2.
  assert (E1 : currentValue (fst (loop (setup 0) i1)) = currentValue (setup 0)).
  { rewrite steady0_first. unfold accepted_at_once. now rewrite R1. }
  split; [exact E1|].
  rewrite loop_currentValue, loop_accumulator, loop_sample_set, loop_loopCount, Hr
    by (cbn; lia).
  change (accumulator (setup 0)) with (F32.of_int 0).
  change (sample (setup 0)) with steady0.
  change (write_index (setup 0)) with 0.
  change ((loopCount (setup 0) + 1) mod 20) with 1.
  now rewrite R2.
Qed.

(** From the steady state after [setup] with any reading. *)
Lemma steady_first (seed : Z) i :
  currentValue (fst (loop (setup seed) i)) =
    if accepted_at_once_from seed (analog i)
    then ema (F32.of_int seed) (F32.of_int (analog i))
    else currentValue (setup seed).
Proof. apply loop_currentValue. Qed.

Lemma steady_second (seed : Z) i1 i2 :
  analog i2 = analog i1 ->
  rejected_twice_from seed (analog i1) = true ->
  currentValue (fst (loop (setup seed) i1)) = currentValue (setup seed)
  /\ currentValue (fst (loop (fst (loop (setup seed) i1)) i2)) = currentValue (setup seed).
Proof.
  intros Hr Hrej. unfold rejected_twice_from in Hrej. cbn zeta in Hrej.
  apply andb_prop in Hrej. destruct Hrej as [R1 R2].
  apply negb_true_iff in R1, R2.
  assert (E1 : currentValue (fst (loop (setup seed) i1)) = currentValue (setup seed)).
  { rewrite steady_first. unfold accepted_at_once_from. now rewrite R1. }
  split; [exact E1|].
  rewrite loop_currentValue, loop_accumulator, loop_sample_set, loop_loopCount, Hr
    by (cbn; lia).
  change (accumulator (setup seed)) with (F32.of_int seed).
  change (sample (setup seed)) with (steady_ring seed).
  change (write_index (setup seed)) with 0.
  change ((loopCount (setup seed) + 1) mod 20) with 1.
  now rewrite R2.
Qed.

End RibbonFacts.

(** * The claims that need a concrete note buffer or a concrete run *)

(** C2: for every state, the thru callback turns a channel aftertouch with
    pressure [p] on channel [c] into exactly one poly aftertouch for
    [curNote()] with that pressure and channel, and afterwards
    [lastAfterTouchMessage] holds that note, pressure and channel; the note
    buffer, [lastChannelUsed] and the ribbon's variables keep their values.
    With the note buffer of the spec and no key held, the message is sent to
    the "no note" value and recorded for it: it is not dropped. *)
Theorem channel_aftertouch_becomes_poly :
  (forall (B : Type) (NB : NotePriorityBuffer B) (s : State B) (p d2 c : byte),
     let s' := fst (dispatch s (OnThru AfterTouchChannel p d2 c)) in
     snd (dispatch s (OnThru AfterTouchChannel p d2 c))
     = [MidiSend AfterTouchPoly (nb_curNote (midiNoteBuffer s)) p c]
     /\ at_note (lastAfterTouchMessage s') = nb_curNote (midiNoteBuffer s)
     /\ at_pressure (lastAfterTouchMessage s') = p
     /\ at_channel (lastAfterTouchMessage s') = c
     /\ midiNoteBuffer s' = midiNoteBuffer s
     /\ lastChannelUsed s' = lastChannelUsed s
     /\ ribbon_fields s' = ribbon_fields s)
  /\ (forall (no_note : byte) (s : State (list byte)) (p d2 c : byte),
        midiNoteBuffer s = [] ->
        let s' := fst (@dispatch _ (LastNoteBuffer no_note) s
                         (OnThru AfterTouchChannel p d2 c)) in
        snd (@dispatch _ (LastNoteBuffer no_note) s (OnThru AfterTouchChannel p d2 c))
        = [MidiSend AfterTouchPoly no_note p c]
        /\ lastAfterTouchMessage s' = mkAT no_note p c).
Proof.
  split.
  - intros B NB s p d2 c. cbn zeta.
    cbn [dispatch MIDIThruHandler is_AfterTouchChannel fst snd].
    repeat split.
  - intros no_note s p d2 c Hb. cbn zeta.
    cbn [dispatch MIDIThruHandler is_AfterTouchChannel fst snd].
    cbn [set_lastAfterTouchMessage lastAfterTouchMessage at_set].
    rewrite Hb. split; reflexivity.
Qed.

(** With the buffer of the spec and no key held, channel aftertouch 80 on
    channel 1 goes to the "no note" value 255. *)
Lemma channel_aftertouch_witness :
  snd (dispatch (setup (B:=list byte) 0) (OnThru AfterTouchChannel 80 0 1))
  = [MidiSend AfterTouchPoly 255 80 1]
  /\ lastAfterTouchMessage
       (fst (dispatch (setup (B:=list byte) 0) (OnThru AfterTouchChannel 80 0 1)))
     = mkAT 255 80 1.
Proof.
  exact (proj2 channel_aftertouch_becomes_poly 255 (setup (B:=list byte) 0) 80 0 1
           eq_refl).
Defined.

Lemma pressure_cleared_witness :
  snd (dispatch keyed_state (OnNoteOff 1 60 0)) = [MidiSend AfterTouchPoly 60 0 1]
  /\ lastAfterTouchMessage (fst (dispatch keyed_state (OnNoteOff 1 60 0))) = at_clear.
Proof.
  assert (Hp : at_pressure (lastAfterTouchMessage keyed_state) <> 0)
    by (vm_compute; discriminate).
  assert (Hc : releases (OnNoteOff 1 60 0) (at_note (lastAfterTouchMessage keyed_state))
               \/ supersedes (OnNoteOff 1 60 0)
                    (at_note (lastAfterTouchMessage keyed_state)))
    by (left; reflexivity).
  pose proof (pressure_cleared_on_release_or_supersede 0 [] keyed_callbacks
                (OnNoteOff 1 60 0) Hp Hc) as H.
  split; [exact (proj1 H) | exact (proj1 (proj2 H))].
Defined.

Lemma contact_transition_witness :
  bends (snd (loop (setup 100) press_tick)) = [0]
  /\ baseline pressed_state
     = (if contact_start (setup 100) press_tick
        then currentValue pressed_state else F32.of_int 0).
Proof.
  assert (H : contact_start (setup 100) press_tick = true
              \/ contact_end (setup 100) press_tick = true)
    by (left; vm_compute; reflexivity).
  pose proof (contact_transition_sends_reset (setup 100) press_tick H) as (H1 & _ & H3).
  exact (conj H1 H3).
Defined.

Lemma bend_throttle_witness :
  bends (snd (loop slide_state slide_tick)) = []
  <-> ~ (bend_of (filtered slide_state slide_tick) <> lastBend slide_state
         /\ 10 < elapsed slide_state slide_tick).
Proof.
  assert (H : bending slide_state slide_tick = true) by (vm_compute; reflexivity).
  exact (proj1 (proj2 (bend_throttle slide_state slide_tick H))).
Defined.

(** C3 as stated fails: in the run [slide_ticks] the last regular bend (0)
    was sent at 1001 ms; at 1011 ms the finger is still down, the bend is 1,
    at least 10 ms have passed, and nothing is sent. *)
Lemma bend_throttle_counterexample :
  bending slide_state slide_tick = true
  /\ bend_of (filtered slide_state slide_tick) = 1
  /\ lastBend slide_state = 0
  /\ lastMessage slide_state = 1001
  /\ millis_test slide_tick = 1011
  /\ 10 <= elapsed slide_state slide_tick
  /\ bends (snd (loop slide_state slide_tick)) = [].
Proof. vm_compute. repeat split; try reflexivity. discriminate. Qed.

Lemma Zrange_forallb (f : Z -> bool) (lo : Z) (n : nat) :
  forallb f (Zrange lo n) = true ->
  forall r, lo <= r < lo + Z.of_nat n -> f r = true.
Proof.
  intros H r Hr. rewrite forallb_forall in H. apply H. unfold Zrange.
  apply in_map_iff. exists (Z.to_nat (r - lo)). split; [lia|].
  apply in_seq. lia.
Qed.

Lemma accepted_at_once_2_19 : forallb accepted_at_once (Zrange 2 18) = true.
Proof. vm_compute. reflexivity. Qed.

Lemma rejected_twice_20_4095 : forallb rejected_twice (Zrange 20 4076) = true.
Proof. vm_compute. reflexivity. Qed.

(** C6 as stated fails twice.  After [setup] with reading 100 the raw sample
    105 is more than 1.0 away from the accumulator, and [currentValue]
    changes on that very tick.  After [setup] with reading 0 the raw sample
    4095 is rejected, and when it is fed again [currentValue] still keeps
    its value. *)
Lemma slope_rejection_counterexample :
  F32.ltb (F32.of_int 1)
    (arduino_abs (F32.sub (F32.of_int 105) (accumulator (setup 100)))) = true
  /\ currentValue (fst (loop (setup 100) (quiet 105 0))) <> currentValue (setup 100)
  /\ currentValue (fst (loop (setup 0) (quiet 4095 0))) = currentValue (setup 0)
  /\ currentValue (fst (loop (fst (loop (setup 0) (quiet 4095 0))) (quiet 4095 0)))
     = currentValue (setup 0)
  /\ currentValue (fst (loop (fst (loop (setup 0) (quiet 4095 0))) (quiet 4095 0)))
     <> accumulator (fst (loop (fst (loop (setup 0) (quiet 4095 0))) (quiet 4095 0))).
Proof. vm_compute. repeat split; try reflexivity; discriminate. Qed.

Lemma accepted_falling_4076_4093 :
  forallb (accepted_at_once_from 4095) (Zrange 4076 18) = true.
Proof. vm_compute. reflexivity. Qed.

Lemma rejected_twice_falling_0_4075 :
  forallb (rejected_twice_from 4095) (Zrange 0 4076) = true.
Proof. vm_compute. reflexivity. Qed.

(** C6, as the code has it.  On every tick of every run the new accumulator
    is [0.95*accumulator + 0.05*raw], and [currentValue] keeps its value
    when the absolute value (of IEEE 754) of the difference between the new
    accumulator and the sample pushed 19 ticks earlier (the seed of [setup]
    during the first 19 ticks) is not below 1, and becomes the new
    accumulator when it is; the raw sample is not compared with the
    accumulator.  From the steady state after [setup] with reading 0, a raw
    sample from 2 to 19 (more than 1.0 away from the accumulator) is
    accepted at once, and a raw sample from 20 to 4095 is rejected on its
    first tick and again when the same sample is fed on the next tick.  The
    same holds downwards: from the steady state at 4095, a raw sample from
    4076 to 4093 is accepted at once, and one from 0 to 4075 is rejected on
    both ticks. *)
Theorem slope_rejection_as_coded :
  (forall (B : Type) (NB : NotePriorityBuffer B)
          (reading : Z) (ticks : list Tick) (i : Tick),
     let k := length ticks in
     let s := state_after reading ticks in
     let s' := fst (loop s i) in
     let earlierSample :=
       if (k <? 19)%nat then F32.of_int reading
       else accumulator (state_after reading (take (k - 18) ticks)) in
     let newAccumulator := ema (accumulator s) (F32.of_int (analog i)) in
     let difference := F32.sub newAccumulator earlierSample in
     accumulator s' = newAccumulator
     /\ (F32.ltb (SFabs difference) (F32.of_int 1) = false ->
         currentValue s' = currentValue s)
     /\ (F32.ltb (SFabs difference) (F32.of_int 1) = true ->
         currentValue s' = newAccumulator))
  /\ (forall (B : Type) (NB : NotePriorityBuffer B) (i : Tick),
        2 <= analog i <= 19 ->
        currentValue (fst (loop (setup 0) i))
        = ema (accumulator (setup 0)) (F32.of_int (analog i)))
  /\ (forall (B : Type) (NB : NotePriorityBuffer B) (i1 i2 : Tick),
        analog i2 = analog i1 ->
        20 <= analog i1 <= 4095 ->
        let s0 := setup 0 in
        let s1 := fst (loop s0 i1) in
        let s2 := fst (loop s1 i2) in
        currentValue s1 = currentValue s0 /\ currentValue s2 = currentValue s0)
  /\ (forall (B : Type) (NB : NotePriorityBuffer B) (i : Tick),
        4076 <= analog i <= 4093 ->
        currentValue (fst (loop (setup 4095) i))
        = ema (accumulator (setup 4095)) (F32.of_int (analog i)))
  /\ (forall (B : Type) (NB : NotePriorityBuffer B) (i1 i2 : Tick),
        analog i2 = analog i1 ->
        0 <= analog i1 <= 4075 ->
        let s0 := setup 4095 in
        let s1 := fst (loop s0 i1) in
        let s2 := fst (loop s1 i2) in
        currentValue s1 = currentValue s0 /\ currentValue s2 = currentValue s0).
Proof.
  split.
  { intros B NB reading ticks i. cbn zeta.
    pose proof (slope_filter_rule reading ticks i) as H. cbn zeta in H.
    rewrite loop_accumulator in H. rewrite loop_accumulator.
    split; [reflexivity|]. split; intros E; rewrite E in H; exact H. }
  split.
  { intros B NB i Hr. rewrite steady0_first.
    rewrite (Zrange_forallb _ _ _ accepted_at_once_2_19) by lia. reflexivity. }
  split.
  { intros B NB i1 i2 Hr Hrange. cbn zeta. apply steady0_second; [exact Hr|].
    apply (Zrange_forallb _ _ _ rejected_twice_20_4095). lia. }
  split.
  { intros B NB i Hr. rewrite steady_first.
    rewrite (Zrange_forallb _ _ _ accepted_falling_4076_4093) by lia. reflexivity. }
  intros B NB i1 i2 Hr Hrange. cbn zeta. apply steady_second; [exact Hr|].
  apply (Zrange_forallb _ _ _ rejected_twice_falling_0_4075). lia.
Qed.

Lemma slope_rejection_witness :
  currentValue (fst (loop (setup 0) (quiet 5 0)))
  = ema (accumulator (setup 0)) (F32.of_int 5)
  /\ currentValue (fst (loop (fst (loop (setup 0) (quiet 4095 0))) (quiet 4095 1)))
     = currentValue (setup 0)
  /\ currentValue (fst (loop (fst (loop (setup 4095) (quiet 0 0))) (quiet 0 1)))
     = currentValue (setup 4095).
Proof.
  destruct slope_rejection_as_coded as (_ & H2 & H3 & _ & H5). split; [|split].
  - apply (H2 (list byte) demo_buffer (quiet 5 0)). cbn. lia.
  - apply (H3 (list byte) demo_buffer (quiet 4095 0) (quiet 4095 1)).
    + reflexivity.
    + cbn. lia.
  - apply (H5 (list byte) demo_buffer (quiet 0 0) (quiet 0 1)).
    + reflexivity.
    + cbn. lia.
Defined.

(** C9: the zero pitch bends of a contact start and of a contact end leave
    [lastMessage] and [lastBend] as they are; an iteration changes either of
    them only by sending a regular bend, which it then records.  Hence a
    regular bend can follow a reset by less than 10 ms (in the run from a
    pressed ribbon the reset goes out at 1000 ms and the first regular bend
    at 1001 ms), and a bend equal to the one sent before a reset is
    suppressed although the last pitch bend on the wire was the 0 of the
    reset (in the run [repress_ticks] the bends sent are 0, 0, 1, 0, 0, the
    throttle has long expired, the bend is 1 again and nothing is sent). *)
Theorem resets_leave_throttle_alone :
  (forall (B : Type) (NB : NotePriorityBuffer B) (s : State B) (i : Tick),
     contact_start s i = true \/ contact_end s i = true ->
     lastBend (fst (loop s i)) = lastBend s
     /\ lastMessage (fst (loop s i)) = lastMessage s)
  /\ (forall (B : Type) (NB : NotePriorityBuffer B) (s : State B) (i : Tick),
        lastBend (fst (loop s i)) <> lastBend s
        \/ lastMessage (fst (loop s i)) <> lastMessage s ->
        bending s i = true
        /\ bends (snd (loop s i)) = [bend_of (filtered s i)]
        /\ lastBend (fst (loop s i)) = bend_of (filtered s i)
        /\ lastMessage (fst (loop s i)) = millis_stamp i)
  /\ (contact_start (setup 100) press_tick = true
      /\ bends (snd (loop (setup 100) press_tick)) = [0]
      /\ bending pressed_state first_bend_tick = true
      /\ bends (snd (loop pressed_state first_bend_tick)) = [0]
      /\ lastBend (fst (loop pressed_state first_bend_tick)) = 0
      /\ lastMessage (fst (loop pressed_state first_bend_tick)) = 1001
      /\ millis_test first_bend_tick - millis_test press_tick < 10)
  /\ (bends (snd (run 100 repress_ticks)) = [0; 0; 1; 0; 0]
      /\ lastBend repress_state = 1
      /\ bending repress_state repress_tick = true
      /\ bend_of (filtered repress_state repress_tick) = 1
      /\ 10 < elapsed repress_state repress_tick
      /\ bends (snd (loop repress_state repress_tick)) = []).
Proof.
  split; [intros; now apply reset_keeps_throttle|].
  split; [intros; now apply throttle_changes_only_on_send|].
  split; vm_compute; repeat split; reflexivity.
Qed.

Lemma resets_leave_throttle_alone_witness :
  lastBend pressed_state = lastBend (setup 100)
  /\ lastMessage pressed_state = lastMessage (setup 100).
Proof.
  destruct resets_leave_throttle_alone as (H1 & _).
  apply (H1 (list byte) demo_buffer (setup 100) press_tick).
  left. vm_compute. reflexivity.
Defined.

(** * Further properties of the sketch *)

Section MidiCoverage.
Context {B : Type} {NB : NotePriorityBuffer B}.
Implicit Types (s : State B) (c : Callback) (cs : list Callback).

Lemma midi_read_cons s c cs :
  midi_read s (c :: cs)
  = (fst (midi_read (fst (dispatch s c)) cs),
     snd (dispatch s c) ++ snd (midi_read (fst (dispatch s c)) cs)).
Proof.
  cbn [midi_read]. destruct (dispatch s c) as [s1 o1]. cbn [fst snd].
  destruct (midi_read s1 cs) as [s2 o2]. reflexivity.
Qed.

(** The ribbon stages, on any state. *)
Lemma ribbon_filter_midi_fields s (r : Z) :
  midi_fields (ribbon_filter s r) = midi_fields s.
Proof. unfold ribbon_filter. destruct (slope_ok _ _); reflexivity. Qed.

Lemma ribbon_bend_midi_fields s (t1 t2 : Z) :
  midi_fields (fst (ribbon_bend s t1 t2)) = midi_fields s.
Proof.
  unfold ribbon_bend.
  repeat match goal with |- context [if ?b then _ else _] => destruct b end;
    reflexivity.
Qed.

Lemma advance_midi_fields s : midi_fields (advance s) = midi_fields s.
Proof. unfold advance. destruct (_ =? 0); reflexivity. Qed.

Lemma loop_midi_fields s (i : Tick) :
  midi_fields (fst (loop s i)) = midi_fields (fst (midi_read s (midi_in i))).
Proof.
  rewrite loop_unfold. cbn [fst]. unfold filtered.
  now rewrite advance_midi_fields, ribbon_bend_midi_fields, ribbon_filter_midi_fields.
Qed.

Lemma ribbon_bend_idle_quiet s (t1 t2 : Z) :
  F32.ltb (baseline s) limit = true ->
  F32.ltb limit (currentValue s) = false ->
  bends (snd (ribbon_bend s t1 t2)) = []
  /\ baseline (fst (ribbon_bend s t1 t2)) = baseline s.
Proof. intros H1 H2. rewrite (ribbon_bend_idle _ _ _ H1 H2). split; reflexivity. Qed.

Lemma ribbon_bend_bending_baseline s (t1 t2 : Z) :
  F32.ltb (baseline s) limit = false ->
  F32.leb (currentValue s) limit = false ->
  baseline (fst (ribbon_bend s t1 t2)) = baseline s.
Proof.
  intros H1 H2. unfold ribbon_bend. fold limit. rewrite H1, H2.
  destruct (negb _); [destruct (10 <? _)|]; reflexivity.
Qed.

Lemma ribbon_bend_start_baseline s (t1 t2 : Z) :
  F32.ltb (baseline s) limit = true ->
  F32.ltb limit (currentValue s) = true ->
  baseline (fst (ribbon_bend s t1 t2)) = currentValue s.
Proof. intros H1 H2. now rewrite (ribbon_bend_contact_start _ _ _ H1 H2). Qed.

Lemma ribbon_bend_end_baseline s (t1 t2 : Z) :
  F32.ltb (baseline s) limit = false ->
  F32.leb (currentValue s) limit = true ->
  baseline (fst (ribbon_bend s t1 t2)) = F32.of_int 0.
Proof. intros H1 H2. now rewrite (ribbon_bend_contact_end _ _ _ H1 H2). Qed.

(** X1: traffic that is not channel aftertouch goes through untouched: a
    batch of thru callbacks without channel aftertouch leaves the whole
    state as it is and sends exactly the incoming messages, in their
    order. *)
Theorem plain_thru_passes_through cs : forall s,
  forallb plain_thru cs = true ->
  midi_read s cs = (s, flat_map message_of cs).
Proof.
  induction cs as [|c cs IH]; intros s H; [reflexivity|].
  cbn [forallb] in H. apply andb_prop in H. destruct H as [Hc Hcs].
  rewrite midi_read_cons.
  destruct c as [| |m d1 d2 ch]; cbn in Hc; try discriminate.
  cbn [dispatch]. unfold MIDIThruHandler.
  destruct (is_AfterTouchChannel m); [discriminate|]. cbn [fst snd].
  now rewrite (IH s Hcs).
Qed.

Lemma dispatch_no_channel_aftertouch s c :
  existsb is_channel_aftertouch (snd (dispatch s c)) = false.
Proof.
  destruct c as [ch n v | ch n v | m d1 d2 ch]; cbn [dispatch].
  - unfold MIDINoteOnHandler, MIDINoteOffHandler.
    repeat match goal with |- context [if ?b then _ else _] => destruct b end;
      reflexivity.
  - unfold MIDINoteOffHandler.
    repeat match goal with |- context [if ?b then _ else _] => destruct b end;
      reflexivity.
  - unfold MIDIThruHandler. destruct m; reflexivity.
Qed.

Lemma midi_read_no_channel_aftertouch cs : forall s,
  existsb is_channel_aftertouch (snd (midi_read s cs)) = false.
Proof.
  induction cs as [|c cs IH]; intros s; [reflexivity|].
  rewrite midi_read_cons. cbn [snd].
  now rewrite existsb_app, dispatch_no_channel_aftertouch, IH.
Qed.

Lemma ribbon_bend_shape s (t1 t2 : Z) :
  snd (ribbon_bend s t1 t2) = []
  \/ exists v, snd (ribbon_bend s t1 t2) = strobe (MidiPitchBend v (lastChannelUsed s)).
Proof.
  unfold ribbon_bend.
  repeat match goal with |- context [if ?b then _ else _] => destruct b end;
    cbn [snd]; eauto.
Qed.

Lemma loop_no_channel_aftertouch s (i : Tick) :
  existsb is_channel_aftertouch (snd (loop s i)) = false.
Proof.
  rewrite loop_unfold. cbn [snd].
  rewrite existsb_app, midi_read_no_channel_aftertouch.
  destruct (ribbon_bend_shape (filtered s i) (millis_test i) (millis_stamp i))
    as [E | [v E]]; rewrite E; reflexivity.
Qed.

Lemma run_from_cons s (i : Tick) (rest : list Tick) :
  run_from s (i :: rest)
  = (fst (run_from (fst (loop s i)) rest),
     snd (loop s i) ++ snd (run_from (fst (loop s i)) rest)).
Proof.
  cbn [run_from]. destruct (loop s i) as [s1 o1]. cbn [fst snd].
  destruct (run_from s1 rest) as [s2 o2]. reflexivity.
Qed.

(** X2: the sketch never sends a channel aftertouch message: whatever the
    callbacks and the ribbon do during a run, every channel aftertouch that
    comes in is replaced, none is forwarded or produced. *)
Theorem never_sends_channel_aftertouch (reading : Z) (ticks : list Tick) :
  existsb is_channel_aftertouch (snd (run reading ticks)) = false.
Proof.
  unfold run. generalize (setup reading).
  induction ticks as [|i ticks IH]; intros s; [reflexivity|].
  rewrite run_from_cons. cbn [snd].
  now rewrite existsb_app, loop_no_channel_aftertouch, IH.
Qed.

(** X3: a note callback always records its channel and updates the note
    buffer, and it sends the aftertouch-off only when it is due: when the
    recorded pressure is nonzero and the callback releases or supersedes the
    recorded note, it sends that one message and clears the record; in
    every other case it sends nothing and keeps the record. *)
Theorem note_callback_sends_off_only_when_due s c :
  is_note_callback c = true ->
  let last := lastAfterTouchMessage s in
  let s' := fst (dispatch s c) in
  midiNoteBuffer s' = buffer_after (midiNoteBuffer s) c
  /\ lastChannelUsed s' = channel_of c
  /\ ((at_pressure last <> 0
       /\ (releases c (at_note last) \/ supersedes c (at_note last))
       /\ snd (dispatch s c) = [MidiSend AfterTouchPoly (at_note last) 0 (at_channel last)]
       /\ lastAfterTouchMessage s' = at_clear)
      \/ (~ (at_pressure last <> 0
             /\ (releases c (at_note last) \/ supersedes c (at_note last)))
          /\ snd (dispatch s c) = []
          /\ lastAfterTouchMessage s' = last)).
Proof.
  intros Hc. cbn zeta.
  destruct c as [ch n v | ch n v | ]; [ | | discriminate Hc ];
    cbn [dispatch buffer_after channel_of releases supersedes];
    unfold MIDINoteOnHandler, MIDINoteOffHandler;
    cbn [lastAfterTouchMessage set_lastChannelUsed];
    destruct (Z.eqb_spec (at_note (lastAfterTouchMessage s)) n) as [En|En];
    destruct (Z.eqb_spec (at_pressure (lastAfterTouchMessage s)) 0) as [Ep|Ep];
    try destruct (Z.eqb_spec v 0) as [Ev|Ev];
    cbn [negb andb fst snd midiNoteBuffer lastChannelUsed lastAfterTouchMessage
         set_midiNoteBuffer set_lastAfterTouchMessage set_lastChannelUsed];
    (split; [reflexivity|]); (split; [reflexivity|]);
    first [ left; repeat split; solve [auto | congruence | tauto]
          | right; split; [|split; reflexivity]; intuition congruence ].
Qed.

Lemma dispatch_lastChannelUsed s c :
  lastChannelUsed (fst (dispatch s c))
  = if is_note_callback c then channel_of c else lastChannelUsed s.
Proof.
  destruct c as [ch n v | ch n v | m d1 d2 ch]; cbn [dispatch is_note_callback channel_of].
  - unfold MIDINoteOnHandler, MIDINoteOffHandler.
    repeat match goal with |- context [if ?b then _ else _] => destruct b end;
      reflexivity.
  - unfold MIDINoteOffHandler.
    repeat match goal with |- context [if ?b then _ else _] => destruct b end;
      reflexivity.
  - unfold MIDIThruHandler. destruct (is_AfterTouchChannel m); reflexivity.
Qed.

Lemma midi_read_lastChannelUsed cs : forall s,
  lastChannelUsed (fst (midi_read s cs)) = last_note_channel cs (lastChannelUsed s).
Proof.
  induction cs as [|c cs IH]; intros s; [reflexivity|].
  rewrite midi_read_cons. cbn [fst last_note_channel].
  now rewrite IH, dispatch_lastChannelUsed.
Qed.

Lemma filtered_lastChannelUsed s (i : Tick) :
  lastChannelUsed (filtered s i) = lastChannelUsed (fst (midi_read s (midi_in i))).
Proof. unfold filtered, ribbon_filter. destruct (slope_ok _ _); reflexivity. Qed.

Lemma bend_channels_app (t1 t2 : list Effect) :
  bend_channels (t1 ++ t2) = bend_channels t1 ++ bend_channels t2.
Proof.
  induction t1 as [|e t1 IH]; [reflexivity|].
  destruct e; cbn [bend_channels app]; rewrite ?IH; reflexivity.
Qed.

Lemma dispatch_no_bend_channels s c : bend_channels (snd (dispatch s c)) = [].
Proof.
  destruct c as [ch n v | ch n v | m d1 d2 ch]; cbn [dispatch].
  - unfold MIDINoteOnHandler, MIDINoteOffHandler.
    repeat match goal with |- context [if ?b then _ else _] => destruct b end;
      reflexivity.
  - unfold MIDINoteOffHandler.
    repeat match goal with |- context [if ?b then _ else _] => destruct b end;
      reflexivity.
  - unfold MIDIThruHandler. destruct (is_AfterTouchChannel m); reflexivity.
Qed.

Lemma midi_read_no_bend_channels cs : forall s,
  bend_channels (snd (midi_read s cs)) = [].
Proof.
  induction cs as [|c cs IH]; intros s; [reflexivity|].
  rewrite midi_read_cons. cbn [snd].
  now rewrite bend_channels_app, dispatch_no_bend_channels, IH.
Qed.

(** X4: pitch bends follow the notes: the channel recorded after a batch of
    callbacks is the channel of its last note callback (thru callbacks do
    not count), and every pitch bend of an iteration goes to the channel of
    the last note callback seen so far, those of the same iteration
    included, because [loop] reads MIDI before it handles the ribbon. *)
Theorem pitch_bend_follows_last_note_channel s (i : Tick) :
  lastChannelUsed (fst (midi_read s (midi_in i)))
  = last_note_channel (midi_in i) (lastChannelUsed s)
  /\ lastChannelUsed (fst (loop s i))
     = last_note_channel (midi_in i) (lastChannelUsed s)
  /\ Forall (fun ch => ch = last_note_channel (midi_in i) (lastChannelUsed s))
       (bend_channels (snd (loop s i))).
Proof.
  pose proof (midi_read_lastChannelUsed (midi_in i) s) as Hm.
  split; [exact Hm|]. split.
  - pose proof (loop_midi_fields s i) as Hf. unfold midi_fields in Hf.
    injection Hf as _ _ Hc. now rewrite Hc.
  - rewrite loop_unfold. cbn [snd]. rewrite bend_channels_app, midi_read_no_bend_channels. cbn [app].
    destruct (ribbon_bend_shape (filtered s i) (millis_test i) (millis_stamp i))
      as [E | [v E]]; rewrite E; cbn [strobe bend_channels]; [constructor|].
    constructor; [|constructor]. now rewrite filtered_lastChannelUsed.
Qed.

Lemma dispatch_only_sends s c : forallb is_send (snd (dispatch s c)) = true.
Proof.
  destruct c as [ch n v | ch n v | m d1 d2 ch]; cbn [dispatch].
  - unfold MIDINoteOnHandler, MIDINoteOffHandler.
    repeat match goal with |- context [if ?b then _ else _] => destruct b end;
      reflexivity.
  - unfold MIDINoteOffHandler.
    repeat match goal with |- context [if ?b then _ else _] => destruct b end;
      reflexivity.
  - unfold MIDIThruHandler. destruct (is_AfterTouchChannel m); reflexivity.
Qed.

(** X5: the MIDI callbacks stay out of the ribbon's business: a batch of
    callbacks changes none of the ribbon's variables (baseline, accumulator,
    ring, filtered value, loop counter, throttle), and all it emits are
    [midiIO.send] messages: no pitch bend, no LED write. *)
Theorem callbacks_leave_ribbon_alone cs : forall s,
  ribbon_fields (fst (midi_read s cs)) = ribbon_fields s
  /\ forallb is_send (snd (midi_read s cs)) = true.
Proof.
  induction cs as [|c cs IH]; intros s; [split; reflexivity|].
  rewrite midi_read_cons. cbn [fst snd].
  destruct (IH (fst (dispatch s c))) as [H1 H2]. split.
  - now rewrite H1, dispatch_ribbon_fields.
  - now rewrite forallb_app, dispatch_only_sends, H2.
Qed.

(** X6: the ribbon code stays out of the aftertouch's business: after the
    callbacks of an iteration, the rest of [loop] changes neither the note
    buffer nor the recorded aftertouch message nor the channel, and what it
    emits is either nothing or exactly LED on, one pitch bend, LED off: at
    most one pitch bend per iteration, never a [midiIO.send] message, and
    the LED is off again at the end. *)
Theorem ribbon_leaves_midi_alone s (i : Tick) :
  midi_fields (fst (loop s i)) = midi_fields (fst (midi_read s (midi_in i)))
  /\ exists o,
       snd (loop s i) = snd (midi_read s (midi_in i)) ++ o
       /\ (o = []
           \/ exists v, o = [LedWrite HIGH;
                             MidiPitchBend v (lastChannelUsed (fst (loop s i)));
                             LedWrite LOW]).
Proof.
  split; [apply loop_midi_fields|].
  exists (snd (ribbon_bend (filtered s i) (millis_test i) (millis_stamp i))).
  split; [now rewrite loop_unfold|].
  destruct (ribbon_bend_shape (filtered s i) (millis_test i) (millis_stamp i))
    as [E | [v E]]; [now left|right]. exists v. rewrite E. unfold strobe.
  pose proof (loop_midi_fields s i) as Hm. unfold midi_fields in Hm.
  injection Hm as _ _ Hc. now rewrite Hc, filtered_lastChannelUsed.
Qed.

End MidiCoverage.

Section RibbonCoverage.
Context {B : Type} {NB : NotePriorityBuffer B}.
Implicit Types (s : State B) (i : Tick).

(** X7: an iteration calls [sendPitchBend] exactly in three situations: a
    contact start, a contact end, or while bending with a bend that differs
    from [lastBend] and more than 10 ms on the clock since [lastMessage]; in
    particular an untouched ribbon (baseline and filtered value both at or
    below the limit) sends nothing.  And the baseline moves only on a
    contact start or a contact end: while bending it stays where the finger
    first came down. *)
Theorem pitch_bend_sent_exactly_when s i :
  (bends (snd (loop s i)) <> [] <->
     contact_start s i = true \/ contact_end s i = true
     \/ (bending s i = true /\ bend_of (filtered s i) <> lastBend s
         /\ 10 < elapsed s i))
  /\ (baseline (fst (loop s i)) <> baseline s ->
      contact_start s i = true \/ contact_end s i = true).
Proof.
  destruct (loop_fields s i) as (_ & _ & _ & Hb & _).
  destruct (filtered_frame s i) as (Fb & _).
  destruct (branch_cases s i) as [H | [H | [H | [H1 H2]]]].
  - assert (E : bends (snd (loop s i)) = [0])
      by (rewrite loop_bends, (contact_cases s i (or_introl H)); reflexivity).
    rewrite E. split; [split; [auto|discriminate]|auto].
  - assert (E : bends (snd (loop s i)) = [0])
      by (rewrite loop_bends, (contact_cases s i (or_intror H)); reflexivity).
    rewrite E. split; [split; [auto|discriminate]|auto].
  - destruct (bending_step s i H) as [Hsend Hhold].
    destruct (bending_cases s i H) as [B1 B2]. split.
    + split.
      * intros Hne. right. right. split; [exact H|].
        destruct (Z.eq_dec (bend_of (filtered s i)) (lastBend s)) as [E|E];
          [|destruct (Z_lt_dec 10 (elapsed s i)) as [L|L]]; [|auto|].
        -- destruct Hhold as (E' & _); [intros [N _]; contradiction|]. contradiction.
        -- destruct Hhold as (E' & _); [intros [_ N]; contradiction|]. contradiction.
      * intros [C | [C | (_ & Hd & Hl)]].
        -- unfold contact_start in C. rewrite B1 in C. discriminate.
        -- unfold contact_end in C. rewrite B2, andb_false_r in C. discriminate.
        -- destruct Hsend as (E' & _); [auto|]. rewrite E'. discriminate.
    + intros Hne. exfalso. apply Hne.
      now rewrite Hb, (ribbon_bend_bending_baseline _ _ _ B1 B2).
  - destruct (ribbon_bend_idle_quiet (filtered s i) (millis_test i) (millis_stamp i) H1 H2)
      as [Q1 Q2].
    rewrite loop_bends, Hb, Q1, Q2, Fb. split.
    + split; [intros N; now contradiction N|].
      intros [C | [C | (C & _)]].
      * unfold contact_start in C. rewrite H2, andb_false_r in C. discriminate.
      * unfold contact_end in C. rewrite H1 in C. discriminate.
      * unfold bending in C. rewrite H1 in C. discriminate.
    + intros N. now contradiction N.
Qed.

Lemma loopCount_reachable (reading : Z) (ticks : list Tick) :
  loopCount (state_after reading ticks) = Z.of_nat (length ticks) mod 20.
Proof.
  induction ticks as [|i ticks IH] using rev_ind; [reflexivity|].
  destruct (ring_ok_reachable reading ticks) as [Hl _].
  rewrite state_after_snoc, loop_loopCount by exact Hl.
  rewrite IH, length_app, Z.add_mod_idemp_l by lia. f_equal. cbn [length]. lia.
Qed.

(** X8: the ring buffer holds the last 20 smoothed samples: after [n]
    iterations [loopCount] is [n mod 20], the array still has 20 elements,
    and the accumulator pushed [d] iterations ago ([d] below 20, 0 for the
    most recent one) sits in slot [(n - 1 - d) mod 20]; slots not yet
    overwritten hold the seed that [setup] read. *)
Theorem ring_buffer_holds_last_20 (reading : Z) (ticks : list Tick) (d : nat) :
  (d < 20)%nat ->
  let n := length ticks in
  let s := state_after reading ticks in
  loopCount s = Z.of_nat n mod 20
  /\ length (sample s) = 20%nat
  /\ sample s !! Z.to_nat ((Z.of_nat n + 19 - Z.of_nat d) mod 20)
     = Some (if (d <? n)%nat
             then accumulator (state_after reading (take (n - d) ticks))
             else F32.of_int reading).
Proof.
  intros Hd. cbn zeta.
  destruct (ring_ok_reachable reading ticks) as [_ Hn].
  split; [apply loopCount_reachable|]. split; [exact Hn|].
  pose proof (ring_holds_reachable reading ticks d Hd) as H. cbn zeta in H.
  rewrite loopCount_reachable in H.
  replace ((Z.of_nat (length ticks) mod 20 + 19 - Z.of_nat d) mod 20)
    with ((Z.of_nat (length ticks) + 19 - Z.of_nat d) mod 20) in H.
  2:{ replace (Z.of_nat (length ticks) mod 20 + 19 - Z.of_nat d)
        with (Z.of_nat (length ticks) mod 20 + (19 - Z.of_nat d)) by lia.
      rewrite Z.add_mod_idemp_l by lia. f_equal. lia. }
  rewrite H. unfold aged, pushed.
  destruct (Nat.ltb_spec d (length ticks)) as [L|L]; [|reflexivity].
  replace (S (length ticks - 1 - d)) with (length ticks - d)%nat by lia.
  reflexivity.
Qed.

(** X9: the filtered value is never invented: after any run [currentValue]
    is the accumulator as it stood after some iteration of that run (or the
    seed of [setup]): the slope filter only holds smoothed samples back. *)
Theorem currentValue_is_a_past_accumulator (reading : Z) (ticks : list Tick) :
  exists k : nat,
    (k <= length ticks)%nat
    /\ currentValue (state_after reading ticks)
       = accumulator (state_after reading (take k ticks)).
Proof.
  induction ticks as [|i ticks IH] using rev_ind.
  - exists 0%nat. split; [lia|reflexivity].
  - destruct IH as (k & Hk & E).
    rewrite state_after_snoc, loop_currentValue, <- loop_accumulator, <- state_after_snoc.
    destruct (slope_test _ _ _ _).
    + exists (length (ticks ++ [i])). split; [lia|]. now rewrite firstn_all.
    + exists k. rewrite length_app. split; [lia|].
      now rewrite take_app_le by lia.
Qed.

(** X10: the throttle survives the overflow of [millis()]: if the clock,
    taken modulo 2^32, reads [d] milliseconds after [lastMessage], the
    elapsed time the sketch computes is [d], also when the clock has wrapped
    around in between; so while bending with a bend that differs from
    [lastBend], the bend is sent exactly when [d] exceeds 10. *)
Theorem throttle_survives_clock_overflow s i (d : Z) :
  bending s i = true ->
  bend_of (filtered s i) <> lastBend s ->
  0 <= lastMessage s < 2^32 ->
  0 <= d < 2^32 ->
  millis_test i = wrap_ulong (lastMessage s + d) ->
  elapsed s i = d
  /\ (bends (snd (loop s i)) = [bend_of (filtered s i)] <-> 10 < d).
Proof.
  intros Hb Hne Hl Hd Ht.
  assert (E : elapsed s i = d).
  { unfold elapsed, wrap_ulong in *. rewrite Ht, Zminus_mod_idemp_l.
    replace (lastMessage s + d - lastMessage s) with d by lia.
    apply Z.mod_small. exact Hd. }
  split; [exact E|].
  destruct (bending_step s i Hb) as [Hsend Hhold]. rewrite E in Hsend, Hhold.
  split.
  - intros Hs. destruct (Z_lt_dec 10 d) as [L|L]; [exact L|].
    destruct Hhold as (E' & _); [intros [_ N]; contradiction|].
    rewrite E' in Hs. discriminate.
  - intros L. now apply Hsend.
Qed.

(** *** The ribbon at rest *)

Lemma same_float_eq (x y : float) : same_float x y = true -> x = y.
Proof.
  destruct x as [a|a| |a m e], y as [b|b| |b n f]; cbn; try discriminate.
  - intros H. apply Bool.eqb_prop in H. now subst.
  - intros H. apply Bool.eqb_prop in H. now subst.
  - reflexivity.
  - intros H. apply andb_prop in H. destruct H as [H He].
    apply andb_prop in H. destruct H as [Hs Hm].
    apply Bool.eqb_prop in Hs. apply Pos.eqb_eq in Hm. apply Z.eqb_eq in He.
    now subst.
Qed.

Lemma array_set_Forall (P : float -> Prop) (a : list float) (k : Z) (x : float) :
  Forall P a -> P x -> Forall P (array_set a k x).
Proof.
  intros Ha Hx. unfold array_set. destruct (in_array a k); [|exact Ha].
  now apply Forall_insert.
Qed.

Lemma at_rest_setup (r : Z) : at_rest r (setup r).
Proof.
  unfold at_rest. cbn [setup accumulator currentValue sample baseline].
  repeat split; try reflexivity; try (cbn; lia).
  - apply Forall_replicate. reflexivity.
  - left. reflexivity.
Qed.

Lemma at_rest_loop (r : Z) s i :
  rest_check r = true ->
  at_rest r s ->
  analog i = r ->
  at_rest r (fst (loop s i))
  /\ Forall (fun v => v = 0) (bends (snd (loop s i)))
  /\ (r <= 13 -> bends (snd (loop s i)) = []).
Proof.
  intros Hchk (Ha & Hc & Hf & Hring & Hb) Hr.
  unfold rest_check in Hchk. cbn zeta in Hchk.
  apply andb_prop in Hchk. destruct Hchk as [Hchk Hside].
  apply andb_prop in Hchk. destruct Hchk as [Hchk Hbend].
  apply andb_prop in Hchk. destruct Hchk as [Hema Hslope].
  apply same_float_eq in Hema. apply Z.eqb_eq in Hbend.
  set (x := F32.of_int r) in *.
  destruct Hring as [Hl Hn].
  assert (Fa : accumulator (filtered s i) = x).
  { rewrite filtered_accumulator, Ha, Hr. exact Hema. }
  assert (Fs : Forall (fun y => y = x) (sample (filtered s i))).
  { rewrite filtered_sample, Ha, Hr. fold x. rewrite Hema.
    now apply array_set_Forall. }
  assert (Fc : currentValue (filtered s i) = x).
  { rewrite filtered_currentValue, Fa, Hc.
    now destruct (slope_ok x (earlier_sample s (analog i))). }
  destruct (filtered_frame s i) as (Fb & _).
  destruct (loop_fields s i) as (La & Ls & Lc & Lb & _).
  assert (Hrest : forall b' : float,
            baseline (fst (ribbon_bend (filtered s i) (millis_test i) (millis_stamp i))) = b' ->
            (b' = F32.of_int 0 \/ (13 < r /\ b' = x)) ->
            at_rest r (fst (loop s i))).
  { intros b' Eb Hb'. unfold at_rest. fold x.
    rewrite La, Lc, Ls, Lb, Fa, Fc, Eb.
    split; [reflexivity|]. split; [reflexivity|]. split; [exact Fs|].
    split; [apply ring_ok_loop; split; assumption|]. exact Hb'. }
  rewrite loop_bends.
  destruct Hb as [Hb | [Hgt Hb]].
  - assert (B0 : F32.ltb (baseline (filtered s i)) limit = true)
      by (rewrite Fb, Hb; reflexivity).
    destruct (Z.leb_spec r 13) as [Hle|Hgt].
    + apply negb_true_iff in Hside.
      assert (B1 : F32.ltb limit (currentValue (filtered s i)) = false)
        by (rewrite Fc; exact Hside).
      rewrite (ribbon_bend_idle _ _ _ B0 B1) in *. cbn [fst snd bends].
      split; [|split; [constructor|reflexivity]].
      apply (Hrest (baseline (filtered s i))); [reflexivity|]. left. now rewrite Fb.
    + apply andb_prop in Hside. destruct Hside as [Hside _].
      apply andb_prop in Hside. destruct Hside as [Hside _].
      assert (B1 : F32.ltb limit (currentValue (filtered s i)) = true)
        by (rewrite Fc; exact Hside).
      rewrite (ribbon_bend_contact_start _ _ _ B0 B1) in *.
      cbn [fst snd bends strobe].
      split; [|split; [repeat constructor|lia]].
      apply (Hrest (currentValue (filtered s i))); [reflexivity|]. right. auto.
  - destruct (Z.leb_spec r 13) as [Hle|_]; [lia|].
    apply andb_prop in Hside. destruct Hside as [Hside S3].
    apply andb_prop in Hside. destruct Hside as [_ S2].
    apply negb_true_iff in S2, S3.
    assert (B0 : F32.ltb (baseline (filtered s i)) limit = false)
      by (rewrite Fb, Hb; exact S2).
    assert (B1 : F32.leb (currentValue (filtered s i)) limit = false)
      by (rewrite Fc; exact S3).
    assert (Bz : bend_of (filtered s i) = 0)
      by (unfold bend_of; rewrite Fc, Fb, Hb; exact Hbend).
    split; [|split; [|lia]].
    + apply (Hrest (baseline (filtered s i))); [|right; rewrite Fb; auto].
      unfold ribbon_bend. fold limit. rewrite B0, B1.
      destruct (negb _); [destruct (10 <? _)|]; reflexivity.
    + unfold ribbon_bend. fold limit. rewrite B0, B1, Bz.
      destruct (negb _); [destruct (10 <? _)|]; cbn [snd bends strobe];
        repeat constructor.
Qed.

Lemma at_rest_run (r : Z) (ticks : list Tick) : forall s,
  rest_check r = true ->
  at_rest r s ->
  Forall (fun i => analog i = r) ticks ->
  at_rest r (fst (run_from s ticks))
  /\ Forall (fun v => v = 0) (bends (snd (run_from s ticks)))
  /\ (r <= 13 -> bends (snd (run_from s ticks)) = []).
Proof.
  induction ticks as [|i ticks IH]; intros s Hchk Hs Hall.
  - cbn [run_from fst snd bends]. split; [exact Hs|]. split; [constructor|reflexivity].
  - apply Forall_cons in Hall. destruct Hall as [Hi Hall].
    destruct (at_rest_loop r s i Hchk Hs Hi) as (Hs1 & Hz1 & He1).
    destruct (IH _ Hchk Hs1 Hall) as (Hs2 & Hz2 & He2).
    rewrite run_from_cons. cbn [fst snd]. rewrite bends_app.
    split; [exact Hs2|]. split.
    + apply Forall_app. split; assumption.
    + intros Hle. now rewrite He1, He2.
Qed.

End RibbonCoverage.

Lemma rest_check_all : forallb rest_check (Zrange 0 4096) = true.
Proof. vm_compute. reflexivity. Qed.

(** X11: a finger (or no finger) at rest never bends the pitch: if the
    ribbon reads the same 12-bit value [r] at [setup] and in every
    iteration, then whatever the MIDI traffic and the clock, the average and
    the filtered value stay at [r], every pitch bend that is sent has the
    value 0, and for [r] at or below the limit 13 no pitch bend is sent at
    all. *)
Theorem ribbon_at_rest_is_quiet {B : Type} {NB : NotePriorityBuffer B}
    (r : Z) (ticks : list Tick) :
  0 <= r <= 4095 ->
  Forall (fun i => analog i = r) ticks ->
  accumulator (state_after (B:=B) r ticks) = F32.of_int r
  /\ currentValue (state_after (B:=B) r ticks) = F32.of_int r
  /\ Forall (fun v => v = 0) (bends (snd (run (B:=B) r ticks)))
  /\ (r <= 13 -> bends (snd (run (B:=B) r ticks)) = []).
Proof.
  intros Hr Hall.
  assert (Hchk : rest_check r = true)
    by (apply (Zrange_forallb _ _ _ rest_check_all); lia).
  destruct (at_rest_run r ticks (setup r) Hchk (at_rest_setup r) Hall)
    as ((Ha & Hc & _) & Hz & He).
  unfold state_after, run. auto.
Qed.

(** *** Pressure stays on its note *)

Section TargetInvariant.
Context {B : Type} {NB : NotePriorityBuffer B}.
Implicit Types (s : State B) (c : Callback).

Lemma target_ok_setup (reading : Z) : target_ok (setup reading).
Proof. intros H. now contradiction H. Qed.

Lemma target_ok_midi_fields s1 s2 :
  midi_fields s1 = midi_fields s2 -> target_ok s2 -> target_ok s1.
Proof.
  unfold midi_fields, target_ok. intros E. injection E as -> -> _. auto.
Qed.

Lemma noteOff_target_ok s (ch n v : byte) :
  last_note_laws -> target_ok s -> target_ok (fst (MIDINoteOffHandler s ch n v)).
Proof.
  intros [_ Loff] Hs. unfold target_ok in *. unfold MIDINoteOffHandler.
  cbn [lastAfterTouchMessage set_lastChannelUsed].
  destruct (Z.eqb_spec (at_note (lastAfterTouchMessage s)) n) as [En|En];
    destruct (Z.eqb_spec (at_pressure (lastAfterTouchMessage s)) 0) as [Ep|Ep];
    cbn [negb andb fst midiNoteBuffer lastAfterTouchMessage
         set_midiNoteBuffer set_lastAfterTouchMessage set_lastChannelUsed
         at_pressure at_note at_clear];
    intros Hp; try contradiction.
  rewrite Loff; [auto|]. rewrite <- (Hs Hp). auto.
Qed.

Lemma dispatch_target_ok s c :
  last_note_laws -> target_ok s -> target_ok (fst (dispatch s c)).
Proof.
  intros Laws Hs. destruct c as [ch n v | ch n v | m d1 d2 ch]; cbn [dispatch].
  - unfold MIDINoteOnHandler. destruct (Z.eqb_spec v 0) as [Ev|Ev].
    + apply noteOff_target_ok; [exact Laws|].
      unfold target_ok in *. exact Hs.
    + destruct Laws as [Lon _]. unfold target_ok in *.
      cbn [lastAfterTouchMessage set_lastChannelUsed].
      destruct (Z.eqb_spec (at_note (lastAfterTouchMessage s)) n) as [En|En];
        destruct (Z.eqb_spec (at_pressure (lastAfterTouchMessage s)) 0) as [Ep|Ep];
        cbn [negb andb fst midiNoteBuffer lastAfterTouchMessage
             set_midiNoteBuffer set_lastAfterTouchMessage set_lastChannelUsed
             at_pressure at_note at_clear];
        intros Hp; try contradiction.
      now rewrite Lon.
  - now apply noteOff_target_ok.
  - unfold MIDIThruHandler. destruct (is_AfterTouchChannel m); [|exact Hs].
    intros _. reflexivity.
Qed.

Lemma midi_read_target_ok (cs : list Callback) : forall s,
  last_note_laws -> target_ok s -> target_ok (fst (midi_read s cs)).
Proof.
  induction cs as [|c cs IH]; intros s Laws Hs; [exact Hs|].
  rewrite midi_read_cons. cbn [fst]. apply IH; [exact Laws|].
  now apply dispatch_target_ok.
Qed.

Lemma loop_target_ok s (i : Tick) :
  last_note_laws -> target_ok s -> target_ok (fst (loop s i)).
Proof.
  intros Laws Hs. apply (target_ok_midi_fields _ _ (loop_midi_fields s i)).
  now apply midi_read_target_ok.
Qed.

(** X12: pressure stays on the note it was put on.  With a note buffer that
    follows the "last note" policy (a pressed note becomes the current one;
    releasing another note than the current one leaves the current one),
    at every point of a run where the recorded pressure is nonzero the
    recorded note is still the buffer's current note, so the next channel
    aftertouch is sent to that same note: pressure moves to another note
    only after an aftertouch-off has cleared the record. *)
Theorem pressure_stays_on_its_note
    (reading : Z) (ticks : list Tick) (cs : list Callback) (p d2 c : byte) :
  last_note_laws ->
  let s := fst (midi_read (state_after reading ticks) cs) in
  at_pressure (lastAfterTouchMessage s) <> 0 ->
  at_note (lastAfterTouchMessage s) = nb_curNote (midiNoteBuffer s)
  /\ snd (dispatch s (OnThru AfterTouchChannel p d2 c))
     = [MidiSend AfterTouchPoly (at_note (lastAfterTouchMessage s)) p c].
Proof.
  intros Laws s Hp.
  assert (Hs : target_ok s).
  { apply midi_read_target_ok; [exact Laws|].
    apply reachable_ind; [apply target_ok_setup|].
    intros; now apply loop_target_ok. }
  split; [exact (Hs Hp)|]. cbn [dispatch MIDIThruHandler is_AfterTouchChannel snd].
  now rewrite (Hs Hp).
Qed.

End TargetInvariant.

(** The note buffer modelled from the spec follows the "last note"
    policy. *)
Lemma LastNoteBuffer_laws (no_note : byte) :
  @last_note_laws (list byte) (LastNoteBuffer no_note).
Proof.
  split; [reflexivity|]. intros b n Hn. cbn in *.
  destruct b as [|h t]; [reflexivity|]. cbn.
  destruct (Z.eqb_spec h n) as [E|E]; [congruence|reflexivity].
Qed.

Section Alternation.
Context {B : Type} {NB : NotePriorityBuffer B}.
Implicit Types (s : State B) (i : Tick).

(** X13: touches and lifts alternate: the iteration after a contact start
    cannot be another contact start, and the iteration after a contact end
    can be neither another contact end nor a bending one (that takes a new
    contact start first), whatever the ribbon reads then.  So each touch
    sends one reset and each lift one reset, and regular bends are sent
    only between a touch and its lift. *)
Theorem contact_transitions_alternate s i (i2 : Tick) :
  (contact_start s i = true -> contact_start (fst (loop s i)) i2 = false)
  /\ (contact_end s i = true ->
      contact_end (fst (loop s i)) i2 = false
      /\ bending (fst (loop s i)) i2 = false).
Proof.
  destruct (filtered_frame (fst (loop s i)) i2) as (Fb & _).
  unfold contact_start at 2, contact_end at 2, bending. rewrite Fb.
  destruct (loop_fields s i) as (_ & _ & _ & Hb & _). rewrite Hb. split; intros H.
  - unfold contact_start in H. apply andb_prop in H. destruct H as [H1 H2].
    rewrite (ribbon_bend_start_baseline _ _ _ H1 H2).
    destruct (ltb_true_flip _ _ H2) as [E _]. now rewrite E.
  - unfold contact_end in H. apply andb_prop in H. destruct H as [H1 H2].
    apply negb_true_iff in H1.
    rewrite (ribbon_bend_end_baseline _ _ _ H1 H2).
    change (F32.ltb (F32.of_int 0) limit) with true. split; reflexivity.
Qed.

(** X14: without pressure the note callbacks are silent: when the recorded
    pressure is 0 (as after [setup], after an aftertouch-off, or after a
    channel aftertouch with pressure 0), any batch of note-on and note-off
    callbacks sends nothing and leaves the recorded message as it is. *)
Theorem notes_without_pressure_are_silent (cs : list Callback) : forall s,
  at_pressure (lastAfterTouchMessage s) = 0 ->
  forallb is_note_callback cs = true ->
  snd (midi_read s cs) = []
  /\ lastAfterTouchMessage (fst (midi_read s cs)) = lastAfterTouchMessage s.
Proof.
  induction cs as [|c cs IH]; intros s Hp Hcs; [split; reflexivity|].
  cbn [forallb] in Hcs. apply andb_prop in Hcs. destruct Hcs as [Hc Hcs].
  rewrite midi_read_cons. cbn [fst snd].
  assert (Hd : snd (dispatch s c) = []
               /\ lastAfterTouchMessage (fst (dispatch s c)) = lastAfterTouchMessage s).
  { destruct c as [ch n v | ch n v | ]; [ | | discriminate Hc ]; cbn [dispatch];
      unfold MIDINoteOnHandler, MIDINoteOffHandler;
      cbn [lastAfterTouchMessage set_lastChannelUsed]; rewrite Hp;
      cbn [Z.eqb negb]; rewrite !andb_false_r;
      try destruct (v =? 0); split; reflexivity. }
  destruct Hd as [Ho Hl]. rewrite Ho.
  destruct (IH (fst (dispatch s c))) as [Ho' Hl']; [now rewrite Hl | exact Hcs |].
  rewrite Ho', Hl', Hl. split; reflexivity.
Qed.

End Alternation.

(** *** Witnesses *)

Lemma plain_thru_witness :
  midi_read keyed_state [OnThru ControlChange 7 100 1; OnThru ProgramChange 5 0 1]
  = (keyed_state, [MidiSend ControlChange 7 100 1; MidiSend ProgramChange 5 0 1]).
Proof.
  apply (plain_thru_passes_through
           [OnThru ControlChange 7 100 1; OnThru ProgramChange 5 0 1] keyed_state).
  reflexivity.
Defined.

Lemma note_callback_witness :
  midiNoteBuffer (fst (dispatch keyed_state (OnNoteOn 1 64 90)))
  = buffer_after (midiNoteBuffer keyed_state) (OnNoteOn 1 64 90)
  /\ lastChannelUsed (fst (dispatch keyed_state (OnNoteOn 1 64 90))) = 1.
Proof.
  pose proof (note_callback_sends_off_only_when_due keyed_state (OnNoteOn 1 64 90)
                eq_refl) as (H1 & H2 & _).
  exact (conj H1 H2).
Defined.

Lemma pitch_bend_sent_witness :
  bends (snd (loop (setup 100) press_tick)) <> [].
Proof.
  apply (proj1 (pitch_bend_sent_exactly_when (setup 100) press_tick)).
  left. vm_compute. reflexivity.
Defined.

Lemma ring_buffer_witness :
  sample (state_after 0 (hold 100 0 25))
    !! Z.to_nat ((Z.of_nat (length (hold 100 0 25)) + 19 - Z.of_nat 3) mod 20)
  = Some (if (3 <? length (hold 100 0 25))%nat
          then accumulator
                 (state_after 0 (take (length (hold 100 0 25) - 3) (hold 100 0 25)))
          else F32.of_int 0).
Proof.
  assert (H : (3 < 20)%nat) by lia.
  exact (proj2 (proj2 (ring_buffer_holds_last_20 (B:=list byte) 0 (hold 100 0 25) 3 H))).
Defined.

Lemma throttle_overflow_witness :
  elapsed rollover_state rollover_tick = 11
  /\ (bends (snd (loop rollover_state rollover_tick))
      = [bend_of (filtered rollover_state rollover_tick)] <-> 10 < 11).
Proof.
  apply (throttle_survives_clock_overflow rollover_state rollover_tick 11).
  - vm_compute. reflexivity.
  - vm_compute. discriminate.
  - vm_compute. split; [discriminate | reflexivity].
  - lia.
  - vm_compute. reflexivity.
Defined.

Lemma ribbon_at_rest_witness :
  bends (snd (run (B:=list byte) 7 (hold 7 0 3))) = [].
Proof.
  assert (Hr : 0 <= 7 <= 4095) by lia.
  assert (Hall : Forall (fun i => analog i = 7) (hold 7 0 3))
    by (repeat constructor).
  apply (proj2 (proj2 (proj2 (ribbon_at_rest_is_quiet (B:=list byte) 7 (hold 7 0 3)
                                Hr Hall)))).
  lia.
Defined.

Lemma pressure_stays_witness :
  snd (dispatch keyed_state (OnThru AfterTouchChannel 90 0 1))
  = [MidiSend AfterTouchPoly (at_note (lastAfterTouchMessage keyed_state)) 90 1].
Proof.
  assert (Hp : at_pressure (lastAfterTouchMessage keyed_state) <> 0)
    by (vm_compute; discriminate).
  exact (proj2 (pressure_stays_on_its_note 0 [] keyed_callbacks 90 0 1
                  (LastNoteBuffer_laws 255) Hp)).
Defined.

Lemma contact_alternate_witness :
  contact_start pressed_state first_bend_tick = false.
Proof.
  apply (proj1 (contact_transitions_alternate (setup 100) press_tick first_bend_tick)).
  vm_compute. reflexivity.
Defined.

Lemma notes_silent_witness :
  snd (midi_read (setup (B:=list byte) 0)
         [OnNoteOn 1 60 100; OnNoteOn 1 64 90; OnNoteOff 1 60 0; OnNoteOn 1 64 0])
  = [].
Proof.
  apply (notes_without_pressure_are_silent
           [OnNoteOn 1 60 100; OnNoteOn 1 64 90; OnNoteOff 1 60 0; OnNoteOn 1 64 0]
           (setup (B:=list byte) 0)); reflexivity.
Defined.
